(** * rstparse: expansion and indexing of RST documents with auto directives

    A shallow embedding of [rstparse/__init__.py] (class [RSTParser]) and the
    properties of it that the design document states.

    Text is modelled as [string]: a sequence of characters whose code points
    are below 256 (the Latin-1 range of a Python [str]).  The interpreter's
    introspection backend ([pydoc.locate], [pydoc.render_doc]) is a pair of
    functions the development is parameterised over. *)

From Stdlib Require Import Ascii String.
From stdpp Require Import gmap strings list fin_maps.

Local Open Scope char_scope.
Local Open Scope stdpp_scope.

(** ** Strings *)

Definition LF : ascii := "010".
Definition BS : ascii := "008".
Definition nl : string := String LF "".

(** Every character of [s] satisfies [p]. *)
Fixpoint all_chars (p : ascii → bool) (s : string) : bool :=
  match s with
  | "" => true
  | String c s' => p c && all_chars p s'
  end.

(** The character just before a position: the last character of what was
    consumed since [prev], or [prev] itself when nothing was. *)
Fixpoint last_char (prev : option ascii) (s : string) : option ascii :=
  match s with
  | "" => prev
  | String c s' => last_char (Some c) s'
  end.

(** ** The fragment of Python's [re] that the program uses

    Patterns are sequences of literal characters, character classes, one
    level of repetition over a character class (greedy or lazy, [*] or [+]),
    capturing groups and the multi-line [^].  The matcher enumerates the ways a
    pattern matches at a position in the backtracking order of [re]: the first
    element of the list is the match [re] reports. *)

Module Re.

Definition cclass := ascii → bool.

(** [.] without DOTALL, [.] with DOTALL, [\w] (Unicode-aware, restricted to
    code points below 256), [[\w\x08]], a literal, a negated literal. *)
Definition dot : cclass := λ c, negb (Ascii.eqb c LF).
Definition any : cclass := λ _, true.
Definition ch (a : ascii) : cclass := λ c, Ascii.eqb c a.
Definition not_ch (a : ascii) : cclass := λ c, negb (Ascii.eqb c a).
Definition word : cclass := λ c,
  let n := N_of_ascii c in
  ((48 <=? n) && (n <=? 57) || (65 <=? n) && (n <=? 90) || (n =? 95)
   || (97 <=? n) && (n <=? 122)
   || (n =? 170) || (n =? 178) || (n =? 179) || (n =? 181) || (n =? 185)
   || (n =? 186) || (188 <=? n) && (n <=? 190)
   || (192 <=? n) && (n <=? 214) || (216 <=? n) && (n <=? 246)
   || (248 <=? n))%N.
Definition word_or_bs : cclass := λ c, word c || Ascii.eqb c BS.

Inductive regex :=
  | Eps
  | Chr (p : cclass)
  | Cat (r1 r2 : regex)
  | Grp (r : regex)
  | Rep (greedy plus : bool) (p : cclass)
  | Bol.

(** A literal string. *)
Fixpoint lit (s : string) : regex :=
  match s with
  | "" => Eps
  | String c s' => Cat (Chr (ch c)) (lit s')
  end.

Definition star p := Rep true false p.
Definition plus p := Rep true true p.
Definition star_lazy p := Rep false false p.
Definition plus_lazy p := Rep false true p.

(** All ways of splitting off a prefix made of [p]-characters, shortest
    prefix first. *)
Fixpoint runs (p : cclass) (s : string) : list (string * string) :=
  ("", s) ::
  match s with
  | String c s' =>
      if p c then (λ '(a, b), (String c a, b)) <$> runs p s' else []
  | "" => []
  end.

(** [^] under MULTILINE: at the start of the text or just after a newline. *)
Definition at_bol (prev : option ascii) : bool :=
  match prev with
  | None => true
  | Some c => Ascii.eqb c LF
  end.

(** A match is (consumed text, captured groups in order, remaining text). *)
Definition result : Type := string * list string * string.

Fixpoint exec (r : regex) (prev : option ascii) (s : string) : list result :=
  match r with
  | Eps => [("", [], s)]
  | Chr p =>
      match s with
      | String c s' => if p c then [(String c "", [], s')] else []
      | "" => []
      end
  | Cat r1 r2 =>
      '(c1, g1, s1) ← exec r1 prev s;
      '(c2, g2, s2) ← exec r2 (last_char prev c1) s1;
      [(c1 +:+ c2, g1 ++ g2, s2)]
  | Grp r =>
      '(c, g, s') ← exec r prev s; [(c, c :: g, s')]
  | Rep greedy plus p =>
      let l := runs p s in
      let l := if plus then tail l else l in
      let l := if greedy then reverse l else l in
      (λ '(a, b), (a, [], b)) <$> l
  | Bol => if at_bol prev then [("", [], s)] else []
  end.

(** [re.match]: the pattern at the start of the text. *)
Definition rmatch (r : regex) (s : string) : option result :=
  head (exec r None s).

(** [re.search]: the pattern at the leftmost position where it matches. *)
Fixpoint search_from (r : regex) (prev : option ascii) (s : string) : option result :=
  match exec r prev s with
  | m :: _ => Some m
  | [] =>
      match s with
      | String c s' => search_from r (Some c) s'
      | "" => None
      end
  end.

Definition search (r : regex) (s : string) : option result :=
  search_from r None s.

(** [re.sub] with a replacement function: scan left to right, replace each
    match and resume after it.  [skip] counts the characters of the current
    match still to pass over.  None of the program's substitution patterns
    matches the empty string; an empty match inserts the replacement and
    moves on by one character, as [re] does. *)
Fixpoint sub_from (r : regex) (repl : list string → string)
    (prev : option ascii) (skip : nat) (s : string) : string :=
  match s with
  | "" =>
      match skip, exec r prev "" with
      | 0, (_, g, _) :: _ => repl g
      | _, _ => ""
      end
  | String c s' =>
      match skip with
      | S k => sub_from r repl (Some c) k s'
      | 0 =>
          match exec r prev s with
          | (m, g, _) :: _ =>
              match String.length m with
              | 0 => repl g +:+ String c (sub_from r repl (Some c) 0 s')
              | S k => repl g +:+ sub_from r repl (Some c) k s'
              end
          | [] => String c (sub_from r repl (Some c) 0 s')
          end
      end
  end.

Definition sub (r : regex) (repl : list string → string) (s : string) : string :=
  sub_from r repl None 0 s.

End Re.

Import Re.
Infix "·" := Cat (at level 41, right associativity).

(** [str.splitlines()]: the line boundaries among code points below 256 are
    LF, VT, FF, CR, CR LF, FS, GS, RS and NEL; no empty last line is produced
    after a final boundary. *)
Definition is_linebreak (c : ascii) : bool :=
  let n := N_of_ascii c in
  ((n =? 10) || (n =? 11) || (n =? 12) || (n =? 13) || (n =? 28) || (n =? 29)
   || (n =? 30) || (n =? 133))%N.

Fixpoint splitlines_go (cur : string) (s : string) : list string :=
  match s with
  | "" => match cur with "" => [] | _ => [String.rev cur] end
  | String c s' =>
      if is_linebreak c then
        String.rev cur ::
        match s' with
        | String c' s'' =>
            if Ascii.eqb c "013" && Ascii.eqb c' LF
            then splitlines_go "" s''
            else splitlines_go "" s'
        | "" => []
        end
      else splitlines_go (String c cur) s'
  end.

Definition splitlines (s : string) : list string := splitlines_go "" s.

(** [str.startswith] and ['.'.join]. *)
Fixpoint startswith (s pre : string) : bool :=
  match pre, s with
  | "", _ => true
  | String a pre', String c s' => Ascii.eqb c a && startswith s' pre'
  | _, "" => false
  end.

Fixpoint join (sep : string) (l : list string) : string :=
  match l with
  | [] => ""
  | [x] => x
  | x :: l' => x +:+ sep +:+ join sep l'
  end.

(** ** The patterns of the program *)

Definition sp : cclass := ch " ".

(** The pattern of [parse_directive]: two dots, spaces, a group of one or
    more characters other than a colon, two colons, spaces, and a group
    holding the rest of the line (greedy throughout). *)
Definition directive_re : regex :=
  lit ".." · star sp · Grp (plus (not_ch ":")) · lit "::" · star sp
  · Grp (star dot).

(** The patterns that cut an argument list, in [track_context] (with the
    spaces before it) and in [register_index]: an opening parenthesis and
    at least one more character of the line. *)
Definition class_args_re : regex := star sp · lit "(" · plus dot.
Definition args_re : regex := lit "(" · plus dot.

(** The class headers of [track_context]: the text [ = class ] and a group
    of word characters; spaces, the text [class ] and such a group. *)
Definition pydoc_class_re : regex := lit " = class " · Grp (plus word).
Definition class_re : regex := star sp · lit "class " · Grp (plus word).

(** A character and the backspace that overstrikes it. *)
Definition overstrike_re : regex := Chr dot · Chr (ch BS).

(** The method signatures of [parse_indices]: a bar, two spaces, and a group
    of a word character, a backspace and one or more word characters or
    backspaces. *)
Definition method_re : regex :=
  lit "|  " · Grp (Chr word · Chr (ch BS) · plus word_or_bs).

(** The autosummary block of [read], with DOTALL: a newline, any two
    characters, the text [ autosummary::], lazily anything, two newlines, a
    lazy non-empty group of anything, two newlines. *)
Definition autosummary_re : regex :=
  Chr (ch LF) · Chr any · Chr any · lit " autosummary::" · star_lazy any
  · Chr (ch LF) · Chr (ch LF) · Grp (plus_lazy any) · Chr (ch LF) · Chr (ch LF).

(** The indentation of [repl_autoloaded], with MULTILINE: one or more
    spaces at the start of a line. *)
Definition indent_re : regex := Bol · plus sp.

(** [m.group(1)] *)
Definition group1 (m : result) : string := default "" (head m.1.2).

(** [re.sub(pattern, '', s)] *)
Definition remove (r : regex) (s : string) : string := sub r (λ _, "") s.

(** ** The introspection backend *)

(** What [pydoc.locate] does with a name: it returns an object, returns
    [None], or raises [pydoc.ErrorDuringImport]. *)
Inductive located := Found | NotFound | ErrorDuringImport.

Class Backend := {
  locate : string → located;
  render_doc : string → string
}.

(** ** class RSTParser *)

(** [module] and [cls] are the attributes [reset_context] creates. *)
Record RSTParser := mkRST {
  lines : list string;
  indices : gmap string nat;
  module : option string;
  cls : option string
}.

Definition set_lines (l : list string) (self : RSTParser) : RSTParser :=
  mkRST l (indices self) (module self) (cls self).
Definition set_indices (i : gmap string nat) (self : RSTParser) : RSTParser :=
  mkRST (lines self) i (module self) (cls self).
Definition set_module (m : option string) (self : RSTParser) : RSTParser :=
  mkRST (lines self) (indices self) m (cls self).
Definition set_cls (c : option string) (self : RSTParser) : RSTParser :=
  mkRST (lines self) (indices self) (module self) c.

(** [__init__] *)
Definition init : RSTParser := mkRST [] ∅ None None.

(** Truth value of an optional string: neither [None] nor empty. *)
Definition truthy (o : option string) : bool :=
  match o with
  | Some (String _ _) => true
  | _ => false
  end.

(** [key in names], for a key that may be [None]. *)
Definition key_in (key : option string) (names : list string) : bool :=
  match key with
  | Some k => bool_decide (k ∈ names)
  | None => false
  end.

Definition DIRECTIVES_TO_INCLUDE : list string :=
  [ "autosummary_"; "module"; "currentmodule"; "automodule"; "class";
    "autoclass"; "method"; "classmethod"; "coroutinemethod"; "automethod";
    "staticmethod"; "function"; "autofunction"; "c:function"; "data";
    "attribute"; "exception"; "c:var"; "c:type"; "decorator"; "envvar";
    "autodata" ].

(** [read], from the text the stream holds. *)
Definition repl_autoloaded (groups : list string) : string :=
  let buf := default "" (head groups) in
  let buf := sub indent_re (λ _, ".. autosummary_:: ") buf in
  nl +:+ buf +:+ nl +:+ nl.

Definition normalize (buf : string) : string :=
  sub autosummary_re repl_autoloaded buf.

Definition read (buf : string) (self : RSTParser) : RSTParser :=
  set_lines (splitlines (normalize buf)) self.

Definition parse_directive (astr : string) : option string * option string :=
  match search directive_re astr with
  | Some (_, [k; v], _) => (Some k, Some v)
  | _ => (None, None)
  end.

Definition compose_name (kargs : list (option string)) : string :=
  let components := omap id kargs in
  join "." components.

(** A [for] loop whose body may [return]: the first value returned. *)
Fixpoint first_return {A B} (body : A → option B) (l : list A) : option B :=
  match l with
  | [] => None
  | x :: l' =>
      match body x with
      | Some y => Some y
      | None => first_return body l'
      end
  end.

(** The same loop with the log its body writes. *)
Fixpoint first_return_log {A B L} (body : A → list L * option B) (l : list A)
    : list L * option B :=
  match l with
  | [] => ([], None)
  | x :: l' =>
      match body x with
      | (w, Some y) => (w, Some y)
      | (w, None) => let '(w', r) := first_return_log body l' in (w ++ w', r)
      end
  end.

Section Parser.
Context {backend : Backend}.

Definition is_valid_name (name : string) : bool :=
  match locate name with
  | ErrorDuringImport => false
  | Found => true
  | NotFound => false
  end.

Definition resolve_name (name : string) (module0 cls0 : option string)
    (self : RSTParser) : option string :=
  let module0 := match module0 with None => module self | _ => module0 end in
  let cls0 := match cls0 with None => cls self | _ => cls0 end in
  first_return (λ m,
    first_return (λ c,
      let n := compose_name [m; c; Some name] in
      if is_valid_name n then Some n else None) [cls0; None])
    [module0; None].

(** [resolve_name] with the names it hands to [pydoc.locate], in call order. *)
Definition resolve_name_log (name : string) (module0 cls0 : option string)
    (self : RSTParser) : list string * option string :=
  let module0 := match module0 with None => module self | _ => module0 end in
  let cls0 := match cls0 with None => cls self | _ => cls0 end in
  first_return_log (λ m,
    first_return_log (λ c,
      let n := compose_name [m; c; Some name] in
      ([n], if is_valid_name n then Some n else None)) [cls0; None])
    [module0; None].

Definition pydoc_lines_for (name : string) (self : RSTParser) : list string :=
  match resolve_name name None None self with
  | None => []
  | Some name =>
      let doc := render_doc name in
      let lines := splitlines doc in
      drop 2 lines
  end.

Definition reset_context (self : RSTParser) : RSTParser :=
  set_cls None (set_module None self).

Definition track_context (line : string) (self : RSTParser) : RSTParser :=
  let '(key, val) := parse_directive line in
  let self :=
    if key_in key ["module"; "currentmodule"; "automodule"]
    then set_module val self else self in
  let self :=
    if key_in key ["class"; "autoclass"]
    then set_cls (remove class_args_re <$> val) self else self in
  let self :=
    match search pydoc_class_re line with
    | Some m => set_cls (Some (group1 m)) self
    | None => self
    end in
  let line := remove overstrike_re line in
  match rmatch class_re line with
  | Some m => set_cls (Some (group1 m)) self
  | None => self
  end.

(** The body of the loop of [expand_auto_directives]; [out] is the local
    list [lines]. *)
Definition expand_line (line : string) (acc : list string * RSTParser)
    : list string * RSTParser :=
  let '(out, self) := acc in
  let out := out ++ [line] in
  let self := track_context line self in
  let '(key, val) := parse_directive line in
  if truthy key && startswith (default "" key) "auto" && truthy val
  then (out ++ pydoc_lines_for (default "" val) self, self)
  else (out, self).

Definition expand_auto_directives (self : RSTParser) : RSTParser :=
  let self := reset_context self in
  let '(out, self) := foldl (λ acc line, expand_line line acc) ([], self) (lines self) in
  set_lines out self.

Definition register_index (name : string) (lineno : nat)
    (module0 cls0 : option string) (self : RSTParser) : RSTParser :=
  let name := remove args_re name in
  let name := resolve_name name module0 cls0 self in
  if truthy name
  then set_indices (<[default "" name := lineno]> (indices self)) self
  else self.

(** [parse_indices] can raise: [self.cls + '.' + name] with [self.cls]
    still [None] is a [TypeError].  The object keeps what was written to it
    before the exception. *)
Inductive outcome :=
  | Returned (self : RSTParser)
  | TypeError (self : RSTParser).

Definition state_of (o : outcome) : RSTParser :=
  match o with Returned s | TypeError s => s end.

(** The first [if] of the loop body of [parse_indices]. *)
Definition index_directive (lineno : nat) (line : string) (self : RSTParser)
    : RSTParser :=
  let '(key, val) := parse_directive line in
  if key_in key DIRECTIVES_TO_INCLUDE && truthy val
  then register_index (default "" val) lineno None None self
  else self.

(** The second [if]: lines of rendered method signatures. *)
Definition index_method (lineno : nat) (line : string) (self : RSTParser)
    : outcome :=
  match search method_re line with
  | Some m =>
      let name := remove overstrike_re (group1 m) in
      match cls self with
      | None => TypeError self
      | Some c =>
          let name := c +:+ "." +:+ name in
          Returned (register_index name lineno None None self)
      end
  | None => Returned self
  end.

Definition index_line (lineno : nat) (line : string) (self : RSTParser)
    : outcome :=
  match index_method lineno line (index_directive lineno line self) with
  | Returned self => Returned (track_context line self)
  | TypeError self => TypeError self
  end.

(** [for lineno, line in enumerate(self.lines)] from position [lineno]. *)
Fixpoint index_lines (lineno : nat) (ls : list string) (self : RSTParser)
    : outcome :=
  match ls with
  | [] => Returned self
  | line :: ls' =>
      match index_line lineno line self with
      | Returned self => index_lines (S lineno) ls' self
      | TypeError self => TypeError self
      end
  end.

Definition parse_indices (self : RSTParser) : outcome :=
  let self := reset_context self in
  index_lines 0 (lines self) self.

Definition parse (self : RSTParser) : outcome :=
  parse_indices (expand_auto_directives self).

End Parser.

(** ** Notions used to state the properties *)


(** The four compositions of a name with a module and a class context. *)
Definition candidates (name : string) (m c : option string) : list string :=
  [ compose_name [m; c; Some name]; compose_name [m; None; Some name];
    compose_name [None; c; Some name]; compose_name [None; None; Some name] ].

Fixpoint doc_of (docs : list (string * string)) (n : string) : string :=
  match docs with
  | [] => ""
  | (k, d) :: docs' => if String.eqb k n then d else doc_of docs' n
  end.

(** A backend given by the names it can locate, the names whose import
    fails, and the documentation it renders. *)
Definition table_backend (found failing : list string)
    (docs : list (string * string)) : Backend :=
  {| locate n :=
       if bool_decide (n ∈ failing) then ErrorDuringImport
       else if bool_decide (n ∈ found) then Found else NotFound;
     render_doc n := doc_of docs n |}.

(** The backend whose import errors are turned into plain failures. *)
Definition not_found_on_error (b : Backend) : Backend :=
  {| locate n :=
       match @locate b n with
       | ErrorDuringImport => NotFound
       | r => r
       end;
     render_doc := @render_doc b |}.

(** Bold text as [pydoc] renders it: every character, a backspace, and the
    character again. *)
Fixpoint bold (s : string) : string :=
  match s with
  | "" => ""
  | String c s' => String c (String BS (String c (bold s')))
  end.

(** A fresh parser object holding the given lines. *)
Definition document (ls : list string) : RSTParser := set_lines ls init.


(** A backend in which every import fails. *)
Definition broken_backend : Backend :=
  {| locate _ := ErrorDuringImport; render_doc _ := "" |}.

(** [matches r prev c g]: pattern [r] matches exactly the text [c], which
    follows the character [prev], with captured groups [g]. *)
Inductive matches : regex → option ascii → string → list string → Prop :=
  | M_Eps prev : matches Eps prev "" []
  | M_Chr p prev c : p c = true → matches (Chr p) prev (String c "") []
  | M_Cat r1 r2 prev c1 g1 c2 g2 :
      matches r1 prev c1 g1 →
      matches r2 (last_char prev c1) c2 g2 →
      matches (r1 · r2) prev (c1 +:+ c2) (g1 ++ g2)
  | M_Grp r prev c g : matches r prev c g → matches (Grp r) prev c (c :: g)
  | M_Rep greedy plus p prev c :
      all_chars p c = true → (plus = true → c ≠ "") →
      matches (Rep greedy plus p) prev c []
  | M_Bol prev : at_bol prev = true → matches Bol prev "" [].

(** The text [c] is a directive with name [k] and value [v]: two dots,
    spaces, a non-empty name without a colon, two colons, spaces, and a
    value without a newline. *)
Definition directive_text (c k v : string) : Prop :=
  ∃ s1 s2,
    c = ".." +:+ s1 +:+ k +:+ "::" +:+ s2 +:+ v
    ∧ all_chars sp s1 = true
    ∧ k ≠ "" ∧ all_chars (not_ch ":") k = true
    ∧ all_chars sp s2 = true
    ∧ all_chars dot v = true.

(** A directive somewhere in the line. *)
Definition has_directive (line k v : string) : Prop :=
  ∃ pre c rest, line = pre +:+ c +:+ rest ∧ directive_text c k v.

(** A directive at the very start of the line. *)
Definition leading_directive (line k v : string) : Prop :=
  ∃ c rest, line = c +:+ rest ∧ directive_text c k v.

(** Apply a change of the object under either outcome. *)
Definition outcome_map (f : RSTParser → RSTParser) (o : outcome) : outcome :=
  match o with
  | Returned s => Returned (f s)
  | TypeError s => TypeError (f s)
  end.

(** The backend of an interpreter in which [str.lower] exists. *)
Definition str_backend : Backend := table_backend ["str"; "str.lower"] [] [].

(** Two lines of rendered documentation pasted into a document: a class
    header and a method signature in bold. *)
Definition pasted_pydoc : list string :=
  [ "class str(object)"; " |  " +:+ bold "lower" +:+ "(self, /)" ].

(** A backend for the example: [pkg] and [pkg.Widget] exist, and the
    documentation of [pkg.Widget] is a banner and the lines [L1] and [L2]. *)
Definition widget_backend : Backend :=
  table_backend ["pkg"; "pkg.Widget"] []
    [("pkg.Widget",
      "Python Library Documentation: class Widget in pkg" +:+ nl +:+ nl
      +:+ "L1" +:+ nl +:+ "L2" +:+ nl)].

(** The block of the design document's example. *)
Definition autosummary_block : string :=
  ".. autosummary::" +:+ nl +:+ nl +:+ "   foo" +:+ nl +:+ "   bar" +:+ nl +:+ nl.

(** The first character of [s] is in the class [p]. *)
Definition starts_in (p : cclass) (s : string) : bool :=
  match s with
  | String c _ => p c
  | "" => false
  end.

(** The text [needle] occurs in [hay]. *)
Definition occurs_in (needle hay : string) : Prop :=
  ∃ a b, hay = a +:+ needle +:+ b.

(** A character of a plain argument list: no newline, no backspace and no
    equals sign. *)
Definition arg_char : cclass :=
  λ c, dot c && not_ch BS c && not_ch "=" c.


(** A line that the indexing pass can record: a directive of the list with a
    value, or a rendered method signature. *)
Definition indexable_line (line : string) : Prop :=
  (∃ key val, parse_directive line = (Some key, Some val)
              ∧ key ∈ DIRECTIVES_TO_INCLUDE ∧ val ≠ "")
  ∨ is_Some (search method_re line).

(** The context after tracking the lines [ls] from [self]. *)
Definition context_after (ls : list string) (self : RSTParser) : RSTParser :=
  foldl (λ s l, track_context l s) self ls.

(** The line, processed alone at line number [n] in the context of [self]
    and from an empty index, records the name [k]. *)
Definition records {backend : Backend} (n : nat) (line : string)
    (self : RSTParser) (k : string) : Prop :=
  is_Some (indices (state_of (index_line n line (set_indices ∅ self))) !! k).

(** The lines the loop of [expand_auto_directives] produces for the lines
    [ls], started in the context of [self]. *)
Definition expansion {backend : Backend} (ls : list string) (self : RSTParser)
    : list string :=
  (foldl (λ acc line, expand_line line acc) ([], self) ls).1.

(** The pattern holds no [^]. *)
Fixpoint bol_free (r : regex) : bool :=
  match r with
  | Bol => false
  | Cat r1 r2 => bol_free r1 && bol_free r2
  | Grp r => bol_free r
  | _ => true
  end.

(** No two newlines in a row. *)
Fixpoint no_blank_line (s : string) : bool :=
  match s with
  | String c1 s' =>
      match s' with
      | String c2 _ => negb (Ascii.eqb c1 LF && Ascii.eqb c2 LF) && no_blank_line s'
      | "" => true
      end
  | "" => true
  end.

(** The entries of an autosummary block, each after the indentation
    [indent], one per line; and the pseudo-directives they become. *)
Definition summary_body (indent : string) (entries : list string) : string :=
  join nl ((λ e, indent +:+ e) <$> entries).

Definition summary_directives (entries : list string) : string :=
  join nl ((λ e, ".. autosummary_:: " +:+ e) <$> entries).

(** * Properties *)

(** ** Strings *)

Lemma app_cons (c : ascii) (s t : string) : String c s +:+ t = String c (s +:+ t).
Proof. reflexivity. Qed.

Lemma app_empty_l (s : string) : "" +:+ s = s.
Proof. reflexivity. Qed.

Lemma app_empty_r (s : string) : s +:+ "" = s.
Proof. induction s as [|c s IH]; [done|]. by rewrite app_cons, IH. Qed.

Lemma app_assoc_s (s t u : string) : (s +:+ t) +:+ u = s +:+ (t +:+ u).
Proof. induction s as [|c s IH]; [done|]. by rewrite !app_cons, IH. Qed.

Lemma last_char_app prev s t :
  last_char prev (s +:+ t) = last_char (last_char prev s) t.
Proof. revert prev. induction s as [|c s IH]; intros prev; [done|]. rewrite app_cons. apply IH. Qed.

(** ** The matcher against a declarative reading of the patterns *)

Lemma elem_of_runs p s a b :
  (a, b) ∈ runs p s ↔ s = a +:+ b ∧ all_chars p a = true.
Proof.
  revert a. induction s as [|c s IH]; intros a; simpl.
  - rewrite list_elem_of_singleton. split.
    + by intros [= -> ->].
    + intros [Hs _]. destruct a; [|done]. rewrite app_empty_l in Hs. by subst.
  - rewrite elem_of_cons. split.
    + intros [[= -> ->]|Hin]; [done|].
      destruct (p c) eqn:Hp; [|by apply elem_of_nil in Hin].
      apply list_elem_of_fmap in Hin as [[a' b'] [[= -> ->] Hin]].
      apply IH in Hin as [-> Ha]. simpl. by rewrite Hp.
    + intros [Hs Ha]. destruct a as [|c' a]; [left; rewrite app_empty_l in Hs; by subst|].
      rewrite app_cons in Hs. injection Hs as <- ->. simpl in Ha.
      apply andb_true_iff in Ha as [Hp Ha]. right. rewrite Hp.
      apply list_elem_of_fmap. exists (a, b). split; [done|]. by apply IH.
Qed.

Lemma elem_of_tail_runs p s a b :
  (a, b) ∈ tail (runs p s) ↔ (a, b) ∈ runs p s ∧ a ≠ "".
Proof.
  destruct s as [|c s]; simpl.
  - rewrite list_elem_of_singleton. split; [by intros ?%elem_of_nil|].
    by intros [[= -> ->] ?].
  - rewrite elem_of_cons. split.
    + intros Hin. split; [by right|].
      destruct (p c); [|by apply elem_of_nil in Hin].
      by apply list_elem_of_fmap in Hin as [[a' b'] [[= -> ->] _]].
    + by intros [[[= -> ->]|Hin] Hne].
Qed.

(** Every element of the matcher's list is a match, and every match is in
    the list. *)
Lemma exec_spec r prev s c g s' :
  (c, g, s') ∈ exec r prev s ↔ s = c +:+ s' ∧ matches r prev c g.
Proof.
  revert prev s c g s'.
  induction r as [|p|r1 IH1 r2 IH2|r IH|greedy plus p|];
    intros prev s c g s'; simpl.
  - rewrite list_elem_of_singleton. split.
    + intros [= -> -> ->]. split; [done|constructor].
    + intros [-> Hm]. by inversion Hm.
  - split.
    + intros Hin. destruct s as [|a s]; [by apply elem_of_nil in Hin|].
      destruct (p a) eqn:Hp; [|by apply elem_of_nil in Hin].
      apply list_elem_of_singleton in Hin as [= -> -> ->].
      split; [done|by constructor].
    + intros [-> Hm]. inversion Hm as [|? ? a Hp| | | |]; subst.
      rewrite app_cons, app_empty_l. rewrite Hp. by apply list_elem_of_singleton.
  - rewrite list_elem_of_bind. split.
    + intros [[[c1 g1] s1] [Hin Hin1]].
      apply list_elem_of_bind in Hin as [[[c2 g2] s2] [Hin Hin2]].
      apply list_elem_of_singleton in Hin as [= -> -> ->].
      apply IH1 in Hin1 as [-> Hm1]. apply IH2 in Hin2 as [-> Hm2].
      split; [by rewrite app_assoc_s|by constructor].
    + intros [-> Hm]. inversion Hm as [| |? ? ? c1 g1 c2 g2 Hm1 Hm2| | |]; subst.
      exists (c1, g1, c2 +:+ s'). split.
      * apply list_elem_of_bind. exists (c2, g2, s'). split.
        -- by apply list_elem_of_singleton.
        -- by apply IH2.
      * apply IH1. split; [by rewrite app_assoc_s|done].
  - rewrite list_elem_of_bind. split.
    + intros [[[c1 g1] s1] [Hin Hin1]].
      apply list_elem_of_singleton in Hin as [= -> -> ->].
      apply IH in Hin1 as [-> Hm]. split; [done|by constructor].
    + intros [-> Hm]. inversion Hm as [| | |? ? ? g' Hm'| |]; subst.
      exists (c, g', s'). split; [by apply list_elem_of_singleton|by apply IH].
  - rewrite list_elem_of_fmap. split.
    + intros [[a b] [[= -> -> ->] Hin]].
      assert ((a, b) ∈ (if plus then tail (runs p s) else runs p s)) as Hin'.
      { destruct greedy; [by rewrite elem_of_reverse in Hin|done]. }
      destruct plus.
      * apply elem_of_tail_runs in Hin' as [[-> Ha]%elem_of_runs Hne].
        split; [done|by constructor].
      * apply elem_of_runs in Hin' as [-> Ha]. split; [done|by constructor].
    + intros [-> Hm]. inversion Hm as [| | | |? ? ? ? ? Ha Hne|]; subst.
      exists (c, s'). split; [done|].
      assert ((c, s') ∈ (if plus then tail (runs p (c +:+ s')) else runs p (c +:+ s')))
        as Hin.
      { destruct plus.
        - apply elem_of_tail_runs. split; [by apply elem_of_runs|auto].
        - by apply elem_of_runs. }
      destruct greedy; [by rewrite elem_of_reverse|done].
  - split.
    + intros Hin. destruct (at_bol prev) eqn:Hb; [|by apply elem_of_nil in Hin].
      apply list_elem_of_singleton in Hin as [= -> -> ->].
      split; [done|by constructor].
    + intros [-> Hm]. inversion Hm as [| | | | |? Hb]; subst. rewrite Hb.
      by apply list_elem_of_singleton.
Qed.

Lemma matches_eps prev c g : matches Eps prev c g ↔ c = "" ∧ g = [].
Proof.
  split; [by inversion 1|]. intros [-> ->]. constructor.
Qed.

Lemma matches_chr p prev c g :
  matches (Chr p) prev c g ↔ ∃ a, c = String a "" ∧ p a = true ∧ g = [].
Proof.
  split.
  - inversion 1 as [|? ? a Hp| | | |]; subst. by exists a.
  - intros (a & -> & Hp & ->). by constructor.
Qed.

Lemma matches_cat r1 r2 prev c g :
  matches (r1 · r2) prev c g ↔
  ∃ c1 g1 c2 g2, c = c1 +:+ c2 ∧ g = g1 ++ g2 ∧ matches r1 prev c1 g1
                 ∧ matches r2 (last_char prev c1) c2 g2.
Proof.
  split.
  - inversion 1 as [| |? ? ? c1 g1 c2 g2 Hm1 Hm2| | |]; subst.
    by exists c1, g1, c2, g2.
  - intros (c1 & g1 & c2 & g2 & -> & -> & Hm1 & Hm2). by constructor.
Qed.

Lemma matches_grp r prev c g :
  matches (Grp r) prev c g ↔ ∃ g', g = c :: g' ∧ matches r prev c g'.
Proof.
  split.
  - inversion 1 as [| | |? ? ? g' Hm| |]; subst. by exists g'.
  - intros (g' & -> & Hm). by constructor.
Qed.

Lemma matches_rep greedy plus p prev c g :
  matches (Rep greedy plus p) prev c g ↔
  g = [] ∧ all_chars p c = true ∧ (plus = true → c ≠ "").
Proof.
  split.
  - by inversion 1 as [| | | |? ? ? ? ? Ha Hne|]; subst.
  - intros (-> & Ha & Hne). by constructor.
Qed.

Lemma matches_lit s prev c g : matches (lit s) prev c g ↔ c = s ∧ g = [].
Proof.
  revert prev c g. induction s as [|a s IH]; intros prev c g; simpl.
  - apply matches_eps.
  - rewrite matches_cat. split.
    + intros (c1 & g1 & c2 & g2 & -> & -> & Hm1 & Hm2).
      apply matches_chr in Hm1 as (a' & -> & Ha & ->).
      apply IH in Hm2 as [-> ->]. apply Ascii.eqb_eq in Ha as ->. done.
    + intros [-> ->]. exists (String a ""), [], s, []. split_and!; [done..| |].
      * apply matches_chr. exists a. split_and!; [done| |done].
        apply Ascii.eqb_refl.
      * by apply IH.
Qed.

(** [re.search] reports the first element of the matcher's list at the
    leftmost position where the list is not empty. *)
Lemma search_from_Some r prev s m :
  search_from r prev s = Some m →
  ∃ pre, s = pre +:+ m.1.1 +:+ m.2
         ∧ head (exec r (last_char prev pre) (m.1.1 +:+ m.2)) = Some m
         ∧ matches r (last_char prev pre) m.1.1 m.1.2.
Proof.
  revert prev. induction s as [|a s IH]; intros prev; simpl.
  - destruct (exec r prev "") as [|m' l] eqn:He; [done|]. intros [= ->].
    destruct m as [[c g] s']. assert ((c, g, s') ∈ exec r prev "") as Hin.
    { rewrite He. by left. }
    apply exec_spec in Hin as [Hs Hm]. exists "". simpl.
    rewrite app_empty_l. split_and!; [done| |done]. by rewrite <- Hs, He.
  - destruct (exec r prev (String a s)) as [|m' l] eqn:He.
    + intros (pre & -> & Hh & Hm)%IH. exists (String a pre). by rewrite app_cons.
    + intros [= ->]. destruct m as [[c g] s'].
      assert ((c, g, s') ∈ exec r prev (String a s)) as Hin.
      { rewrite He. by left. }
      apply exec_spec in Hin as [Hs Hm]. exists "". simpl.
      rewrite app_empty_l. split_and!; [done| |done]. by rewrite <- Hs, He.
Qed.

Lemma search_from_None r prev s :
  search_from r prev s = None ↔
  ∀ pre suf, s = pre +:+ suf → exec r (last_char prev pre) suf = [].
Proof.
  revert prev. induction s as [|a s IH]; intros prev; simpl.
  - split.
    + destruct (exec r prev "") eqn:He; [|done]. intros _ pre suf Hs.
      destruct pre; [|done]. rewrite app_empty_l in Hs. by subst.
    + intros H. pose proof (H "" "" eq_refl) as He. simpl in He. by rewrite He.
  - split.
    + destruct (exec r prev (String a s)) eqn:He; [|done].
      intros Hn pre suf Hs. destruct pre as [|a' pre].
      * rewrite app_empty_l in Hs. by subst.
      * rewrite app_cons in Hs. injection Hs as <- ->. simpl.
        by apply (proj1 (IH (Some a))).
    + intros H. pose proof (H "" (String a s) eq_refl) as He. simpl in He.
      rewrite He. apply IH.
      intros pre suf ->. by apply (H (String a pre) suf).
Qed.

Lemma search_is_Some r s :
  is_Some (search r s) ↔
  ∃ pre c g s', s = pre +:+ c +:+ s' ∧ matches r (last_char None pre) c g.
Proof.
  unfold search. split.
  - intros [[[c g] s'] (pre & Hs & _ & Hm)%search_from_Some].
    by exists pre, c, g, s'.
  - intros (pre & c & g & s' & -> & Hm).
    destruct (search_from r None (pre +:+ c +:+ s')) eqn:Hn; [done|].
    assert (exec r (last_char None pre) (c +:+ s') = []) as He.
    { by eapply search_from_None. }
    assert ((c, g, s') ∈ exec r (last_char None pre) (c +:+ s')) as Hin.
    { by apply exec_spec. }
    rewrite He in Hin. by apply elem_of_nil in Hin.
Qed.

(** Membership in an explicit list. *)
Ltac in_list :=
  repeat first [apply list_elem_of_here | apply list_elem_of_further].

Ltac inv_matches :=
  unfold star, plus, star_lazy, plus_lazy in *;
  repeat match goal with
  | H : matches (_ · _) _ _ _ |- _ =>
      apply matches_cat in H as (? & ? & ? & ? & -> & -> & ? & H)
  | H : matches (lit _) _ _ _ |- _ => apply matches_lit in H as [-> ->]
  | H : matches (Grp _) _ _ _ |- _ => apply matches_grp in H as (? & -> & H)
  | H : matches (Rep _ _ _) _ _ _ |- _ => apply matches_rep in H as (-> & ? & ?)
  | H : matches (Chr _) _ _ _ |- _ => apply matches_chr in H as (? & -> & ? & ->)
  | H : matches Eps _ _ _ |- _ => apply matches_eps in H as [-> ->]
  end.

(** ** parse_directive *)

Lemma matches_directive prev c g :
  matches directive_re prev c g ↔ ∃ k v, g = [k; v] ∧ directive_text c k v.
Proof.
  unfold directive_re, directive_text. split.
  - intros H. inv_matches. eexists _, _. split; [done|]. eexists _, _.
    split_and!; [done..|auto|done|done|done].
  - intros (k & v & -> & s1 & s2 & -> & Hs1 & Hk & Hk' & Hs2 & Hv).
    apply matches_cat. exists "..", [], (s1 +:+ k +:+ "::" +:+ s2 +:+ v), [k; v].
    split_and!; [done|done|by apply matches_lit|].
    apply matches_cat. exists s1, [], (k +:+ "::" +:+ s2 +:+ v), [k; v].
    split_and!; [done|done|by apply matches_rep|].
    apply matches_cat. exists k, [k], ("::" +:+ s2 +:+ v), [v].
    split_and!; [done|done| |].
    { apply matches_grp. exists []. split; [done|]. by apply matches_rep. }
    apply matches_cat. exists "::", [], (s2 +:+ v), [v].
    split_and!; [done|done|by apply matches_lit|].
    apply matches_cat. exists s2, [], v, [v].
    split_and!; [done|done|by apply matches_rep|].
    apply matches_grp. exists []. split; [done|]. by apply matches_rep.
Qed.

(** The first match of a sequence ends with the first match of its last
    part; of a group, with that of its body. *)
Lemma head_exec_cat r1 r2 prev s c g s' :
  head (exec (r1 · r2) prev s) = Some (c, g, s') →
  ∃ c1 g1 s1 c2 g2,
    (c1, g1, s1) ∈ exec r1 prev s
    ∧ head (exec r2 (last_char prev c1) s1) = Some (c2, g2, s')
    ∧ c = c1 +:+ c2 ∧ g = g1 ++ g2.
Proof.
  simpl. induction (exec r1 prev s) as [|[[c1 g1] s1] l IH]; [done|].
  simpl. destruct (exec r2 (last_char prev c1) s1) as [|[[c2 g2] s2] l2] eqn:He.
  - simpl. intros (c1' & g1' & s1' & c2' & g2' & Hin & ?)%IH.
    exists c1', g1', s1', c2', g2'. split; [by right|done].
  - simpl. intros [= <- <- <-]. exists c1, g1, s1, c2, g2.
    rewrite He. split; [by left|done].
Qed.

Lemma head_exec_grp r prev s c g s' :
  head (exec (Grp r) prev s) = Some (c, g, s') →
  ∃ g', g = c :: g' ∧ head (exec r prev s) = Some (c, g', s').
Proof.
  simpl. destruct (exec r prev s) as [|[[c1 g1] s1] l]; [done|].
  simpl. intros [= <- <- <-]. by exists g1.
Qed.

(** The longest run stops at the end of the text or before a character
    outside the class. *)
Lemma last_runs p s a b :
  last (runs p s) = Some (a, b) →
  b = "" ∨ ∃ c t, b = String c t ∧ p c = false.
Proof.
  revert a. induction s as [|c s IH]; intros a; simpl.
  - intros [= <- <-]. by left.
  - destruct (p c) eqn:Hp.
    + pose proof (IH) as IH'. destruct (runs p s) as [|[a0 b0] l] eqn:Hr.
      { by destruct s. }
      change (last (("", String c s) :: ((λ '(a, b), (String c a, b)) <$> ((a0, b0) :: l))))
        with (last ((λ '(a, b), (String c a, b)) <$> ((a0, b0) :: l))).
      rewrite fmap_last. destruct (last ((a0, b0) :: l)) as [[a1 b1]|]; [|done].
      simpl. intros [= <- <-]. by eapply IH'.
    + simpl. intros [= <- <-]. right. by exists c, s.
Qed.

Lemma head_fmap {A B} (f : A → B) (l : list A) : head (f <$> l) = f <$> head l.
Proof. by destruct l. Qed.

Lemma head_exec_star p prev s c g s' :
  head (exec (star p) prev s) = Some (c, g, s') →
  s' = "" ∨ ∃ a t, s' = String a t ∧ p a = false.
Proof.
  simpl. rewrite head_fmap, head_reverse.
  destruct (last (runs p s)) as [[a b]|] eqn:Hl; [|done].
  simpl. intros [= <- <- <-]. by eapply last_runs.
Qed.

Lemma parse_directive_search line k v :
  parse_directive line = (Some k, Some v) ↔
  ∃ c rest, search directive_re line = Some (c, [k; v], rest).
Proof.
  unfold parse_directive. split.
  - destruct (search directive_re line) as [[[c g] rest]|]; [|done].
    destruct g as [|k' [|v' [|]]]; try done. intros [= -> ->]. by exists c, rest.
  - by intros (c & rest & ->).
Qed.

Lemma search_directive_groups line c g rest :
  search directive_re line = Some (c, g, rest) → ∃ k v, g = [k; v].
Proof.
  intros (pre & _ & _ & Hm)%search_from_Some. cbn [fst snd] in Hm.
  apply matches_directive in Hm as (k & v & -> & _). by exists k, v.
Qed.

Lemma parse_directive_None line :
  parse_directive line = (None, None) ↔ search directive_re line = None.
Proof.
  unfold parse_directive. split.
  - destruct (search directive_re line) as [[[c g] rest]|] eqn:Hs; [|done].
    apply search_directive_groups in Hs as (k & v & ->). done.
  - by intros ->.
Qed.

Lemma parse_directive_cases line :
  parse_directive line = (None, None)
  ∨ ∃ k v, parse_directive line = (Some k, Some v).
Proof.
  destruct (search directive_re line) as [[[c g] rest]|] eqn:Hs.
  - right. destruct (search_directive_groups _ _ _ _ Hs) as (k & v & ->).
    exists k, v. apply parse_directive_search. by exists c, rest.
  - left. by apply parse_directive_None.
Qed.

Lemma parse_directive_sound line k v :
  parse_directive line = (Some k, Some v) →
  ∃ pre c rest,
    line = pre +:+ c +:+ rest ∧ directive_text c k v
    ∧ (rest = "" ∨ ∃ t, rest = String LF t).
Proof.
  intros (c & rest & Hs)%parse_directive_search.
  apply search_from_Some in Hs as (pre & Hl & Hh & Hm). cbn [fst snd] in *.
  exists pre, c, rest. split_and!; [done| |].
  - apply matches_directive in Hm as (k' & v' & [= <- <-] & Hd). done.
  - unfold directive_re in Hh.
    repeat (apply head_exec_cat in Hh
              as (? & ? & ? & ? & ? & _ & Hh & _ & _)).
    apply head_exec_grp in Hh as (? & _ & Hh).
    apply head_exec_star in Hh as [->|(a & t & -> & Ha)]; [by left|right].
    exists t. unfold dot in Ha. apply negb_false_iff, Ascii.eqb_eq in Ha.
    by subst.
Qed.

Lemma parse_directive_complete line k v :
  has_directive line k v → ∃ k' v', parse_directive line = (Some k', Some v').
Proof.
  intros (pre & c & rest & -> & Hd).
  destruct (parse_directive_cases (pre +:+ c +:+ rest)) as [Hn|]; [|done].
  apply parse_directive_None in Hn.
  assert (is_Some (search directive_re (pre +:+ c +:+ rest))) as [? Hs].
  { apply search_is_Some. exists pre, c, [k; v], rest. split; [done|].
    apply matches_directive. by exists k, v. }
  congruence.
Qed.

(** C6, as stated, at a directive that is indented: the parser returns a pair
    although the line does not begin with two dots. *)
Lemma parse_directive_indented_counterexample :
  parse_directive "   .. method:: run()" = (Some "method", Some "run()")
  ∧ ¬ ∃ k v, leading_directive "   .. method:: run()" k v.
Proof.
  split; [by vm_compute|].
  intros (k & v & c & rest & Hl & s1 & s2 & -> & _).
  rewrite !app_cons in Hl. discriminate.
Qed.

(** C6 (amended): [parse_directive] returns a pair exactly when the line
    contains, at any position, two dots, optional spaces, a non-empty name
    without a colon, two colons, optional spaces and a value; the pair it
    returns is such a name and value, the value running to the end of the
    line; for every other line it returns [(None, None)]. *)
Theorem parse_directive_spec (line : string) :
  (∀ k v, parse_directive line = (Some k, Some v) →
     ∃ pre c rest,
       line = pre +:+ c +:+ rest ∧ directive_text c k v
       ∧ (rest = "" ∨ ∃ t, rest = String LF t))
  ∧ ((∃ k v, parse_directive line = (Some k, Some v)) ↔
     (∃ k v, has_directive line k v))
  ∧ (parse_directive line = (None, None) ↔ ¬ ∃ k v, has_directive line k v).
Proof.
  split_and!.
  - apply parse_directive_sound.
  - split.
    + intros (k & v & (pre & c & rest & ? & ? & _)%parse_directive_sound).
      by exists k, v, pre, c, rest.
    + intros (k & v & H). by eapply parse_directive_complete.
  - split.
    + intros Hn (k & v & (k' & v' & H)%parse_directive_complete). congruence.
    + intros Hn. destruct (parse_directive_cases line) as [|(k & v & H)]; [done|].
      destruct Hn. apply parse_directive_sound in H as (pre & c & rest & ? & ? & _).
      by exists k, v, pre, c, rest.
Qed.

Lemma parse_directive_spec_witness :
  ∃ pre c rest,
    ".. module:: pkg" = pre +:+ c +:+ rest ∧ directive_text c "module" "pkg"
    ∧ (rest = "" ∨ ∃ t, rest = String LF t).
Proof.
  apply (proj1 (parse_directive_spec ".. module:: pkg")). by vm_compute.
Defined.

(** ** resolve_name *)

Section Resolution.
Context {backend : Backend}.


Lemma resolve_name_candidates name m0 c0 self :
  let m := match m0 with None => module self | _ => m0 end in
  let c := match c0 with None => cls self | _ => c0 end in
  resolve_name name m0 c0 self = List.find is_valid_name (candidates name m c).
Proof.
  intros m c. unfold resolve_name, candidates. fold m c. simpl.
  repeat (match goal with |- context [is_valid_name ?n] =>
            destruct (is_valid_name n) eqn:?; simpl end); done.
Qed.


End Resolution.

(** The example of the design document: module [pkg], class [Cls], name [m],
    with a backend that knows [pkg.m] only. *)
Example resolve_name_pkg_Cls_m :
  let b := table_backend ["pkg.m"] [] [] in
  @resolve_name_log b "m" None None (mkRST [] ∅ (Some "pkg") (Some "Cls"))
  = (["pkg.Cls.m"; "pkg.m"], Some "pkg.m").
Proof. by vm_compute. Qed.

(** ** The parser object *)

Section Passes.
Context {backend : Backend}.

Lemma set_indices_id self : set_indices (indices self) self = self.
Proof. by destruct self. Qed.

Lemma resolve_name_set_indices name m c i self :
  resolve_name name m c (set_indices i self) = resolve_name name m c self.
Proof. done. Qed.

Lemma track_context_set_indices i line self :
  track_context line (set_indices i self) = set_indices i (track_context line self).
Proof.
  unfold track_context. destruct (parse_directive line) as [key val].
  repeat match goal with
         | |- context [if ?b then _ else _] => destruct b
         | |- context [match ?o with Some _ => _ | None => _ end] => destruct o
         end; done.
Qed.

Lemma track_context_lines line self : lines (track_context line self) = lines self.
Proof.
  unfold track_context. destruct (parse_directive line) as [key val].
  repeat match goal with
         | |- context [if ?b then _ else _] => destruct b
         | |- context [match ?o with Some _ => _ | None => _ end] => destruct o
         end; done.
Qed.

Lemma track_context_indices line self :
  indices (track_context line self) = indices self.
Proof.
  unfold track_context. destruct (parse_directive line) as [key val].
  repeat match goal with
         | |- context [if ?b then _ else _] => destruct b
         | |- context [match ?o with Some _ => _ | None => _ end] => destruct o
         end; done.
Qed.

(** [register_index] writes at most one entry and nothing else. *)
Lemma register_index_frame name lineno m c self :
  ∃ Δ : gmap string nat,
    (∀ k v, Δ !! k = Some v → v = lineno)
    ∧ ∀ i, register_index name lineno m c (set_indices i self)
           = set_indices (Δ ∪ i) self.
Proof.
  unfold register_index.
  destruct (truthy (resolve_name (remove args_re name) m c self)) eqn:Ht.
  - exists {[ default "" (resolve_name (remove args_re name) m c self) := lineno ]}.
    split.
    + intros k v [_ <-]%lookup_singleton_Some. done.
    + intros i. rewrite resolve_name_set_indices, Ht. simpl.
      by rewrite insert_union_singleton_l.
  - exists ∅. split; [done|]. intros i.
    rewrite resolve_name_set_indices, Ht. by rewrite (left_id_L ∅ (∪)).
Qed.

Lemma index_directive_frame lineno line self :
  ∃ Δ : gmap string nat,
    (∀ k v, Δ !! k = Some v → v = lineno)
    ∧ ∀ i, index_directive lineno line (set_indices i self)
           = set_indices (Δ ∪ i) self.
Proof.
  unfold index_directive. destruct (parse_directive line) as [key val].
  destruct (_ && _).
  - apply register_index_frame.
  - exists ∅. split; [done|]. intros i. by rewrite (left_id_L ∅ (∪)).
Qed.

Lemma index_method_frame lineno line self :
  ∃ (Δ : gmap string nat) o,
    (∀ k v, Δ !! k = Some v → v = lineno)
    ∧ state_of o = self
    ∧ ∀ i, index_method lineno line (set_indices i self)
           = outcome_map (set_indices (Δ ∪ i)) o.
Proof.
  unfold index_method. destruct (search method_re line) as [m|].
  - simpl. destruct (cls self) as [c|] eqn:Hc.
    + destruct (register_index_frame
        (c +:+ "." +:+ remove overstrike_re (group1 m)) lineno None None self)
        as (Δ & HΔ & Hr).
      exists Δ, (Returned self). split_and!; [done..|].
      intros i. simpl. by rewrite Hr.
    + exists ∅, (TypeError self). split_and!; [done..|].
      intros i. simpl. by rewrite (left_id_L ∅ (∪)).
  - exists ∅, (Returned self). split_and!; [done..|].
    intros i. simpl. by rewrite (left_id_L ∅ (∪)).
Qed.

(** One line of the indexing pass: the entries it writes carry its line
    number and do not depend on the index, and the lines stay as they are. *)
Lemma index_line_frame lineno line self :
  ∃ (Δ : gmap string nat) o,
    (∀ k v, Δ !! k = Some v → v = lineno)
    ∧ lines (state_of o) = lines self
    ∧ ∀ i, index_line lineno line (set_indices i self)
           = outcome_map (set_indices (Δ ∪ i)) o.
Proof.
  unfold index_line.
  destruct (index_directive_frame lineno line self) as (Δ1 & HΔ1 & H1).
  destruct (index_method_frame lineno line self) as (Δ2 & o & HΔ2 & Ho & H2).
  exists (Δ2 ∪ Δ1),
    (match o with Returned s => Returned (track_context line s) | _ => o end).
  split_and!.
  - intros k v [?|[_ ?]]%lookup_union_Some_raw; eauto.
  - destruct o as [s|s]; simpl in *; subst; [|done].
    by rewrite track_context_lines.
  - intros i. rewrite H1, H2, <- (assoc_L (∪)).
    destruct o as [s|s]; simpl; [|done].
    by rewrite track_context_set_indices.
Qed.

(** The whole loop, from line number [n]. *)
Lemma index_lines_frame n ls self :
  ∃ (Δ : gmap string nat) o,
    (∀ k v, Δ !! k = Some v → n ≤ v < n + length ls)
    ∧ lines (state_of o) = lines self
    ∧ ∀ i, index_lines n ls (set_indices i self)
           = outcome_map (set_indices (Δ ∪ i)) o.
Proof.
  revert n self. induction ls as [|line ls IH]; intros n self.
  - exists ∅, (Returned self). split_and!; [done..|].
    intros i. simpl. by rewrite (left_id_L ∅ (∪)).
  - destruct (index_line_frame n line self) as (Δ1 & o1 & HΔ1 & Hl1 & H1).
    destruct o1 as [s1|s1].
    + destruct (IH (S n) s1) as (Δ2 & o2 & HΔ2 & Hl2 & H2).
      exists (Δ2 ∪ Δ1), o2. split_and!.
      * intros k v [?%HΔ2|[_ ?%HΔ1]]%lookup_union_Some_raw; simpl; lia.
      * by rewrite Hl2.
      * intros i. simpl. rewrite H1. simpl. by rewrite H2, (assoc_L (∪)).
    + exists Δ1, (TypeError s1). split_and!; [|done|].
      * intros k v ?%HΔ1. simpl. lia.
      * intros i. simpl. by rewrite H1.
Qed.

Lemma reset_context_set_indices i self :
  reset_context (set_indices i self) = set_indices i (reset_context self).
Proof. done. Qed.

Lemma parse_indices_frame self :
  ∃ (Δ : gmap string nat) o,
    (∀ k v, Δ !! k = Some v → v < length (lines self))
    ∧ lines (state_of o) = lines self
    ∧ ∀ i, parse_indices (set_indices i self)
           = outcome_map (set_indices (Δ ∪ i)) o.
Proof.
  destruct (index_lines_frame 0 (lines self) (reset_context self))
    as (Δ & o & HΔ & Hl & H).
  exists Δ, o. split_and!; [|done|].
  - intros k v ?%HΔ. lia.
  - intros i. unfold parse_indices. by rewrite reset_context_set_indices, H.
Qed.

(** C8: running [parse_indices] again on the object it has left gives the
    same symbol index, and indeed the same object and the same outcome,
    whether the first run returned or raised. *)
Theorem parse_indices_idempotent (self : RSTParser) :
  indices (state_of (parse_indices (state_of (parse_indices self))))
    = indices (state_of (parse_indices self))
  ∧ parse_indices (state_of (parse_indices self)) = parse_indices self.
Proof.
  assert (parse_indices (state_of (parse_indices self)) = parse_indices self)
    as Heq; [|by rewrite Heq].
  destruct (parse_indices_frame self) as (Δ & o & _ & Hl & H).
  assert (parse_indices self = outcome_map (set_indices (Δ ∪ indices self)) o)
    as ->.
  { by rewrite <- H, set_indices_id. }
  assert (∀ i, parse_indices (set_indices i (state_of o))
               = outcome_map (set_indices (Δ ∪ i)) o) as H2.
  { intros i. rewrite <- H.
    unfold parse_indices, reset_context, set_cls, set_module, set_indices.
    simpl. by rewrite Hl. }
  replace (state_of (outcome_map (set_indices (Δ ∪ indices self)) o))
    with (set_indices (Δ ∪ indices self) (state_of o)) by by destruct o.
  rewrite H2. by rewrite (assoc_L (∪)), (idemp_L (∪)).
Qed.

(** ** Line numbers *)

Lemma expand_line_shape line out self :
  ∃ extra,
    expand_line line (out, self) = (out ++ line :: extra, track_context line self)
    ∧ (parse_directive line = (None, None) → extra = []).
Proof.
  unfold expand_line. destruct (parse_directive line) as [key val].
  destruct (_ && _) eqn:Hc.
  - eexists. rewrite <- (assoc_L (++)). split; [done|].
    intros [= -> ->]. done.
  - by exists [].
Qed.

Lemma expand_loop_indices ls out self :
  indices (foldl (λ acc line, expand_line line acc) (out, self) ls).2
    = indices self.
Proof.
  revert out self. induction ls as [|line ls IH]; intros out self; [done|].
  cbn [foldl]. destruct (expand_line_shape line out self) as (extra & -> & _).
  by rewrite IH, track_context_indices.
Qed.

Lemma expand_auto_directives_indices self :
  indices (expand_auto_directives self) = indices self.
Proof.
  unfold expand_auto_directives.
  pose proof (expand_loop_indices (lines (reset_context self)) [] (reset_context self)) as H.
  destruct (foldl _ _ _) as [out s]. simpl in *. done.
Qed.

Lemma parse_indices_lines self :
  lines (state_of (parse_indices self)) = lines self.
Proof.
  destruct (parse_indices_frame self) as (Δ & o & _ & Hl & H).
  specialize (H (indices self)). rewrite set_indices_id in H. rewrite H.
  by destruct o.
Qed.

Lemma parse_indices_bound self :
  map_Forall (λ _ n, n < length (lines self)) (indices self) →
  map_Forall (λ _ n, n < length (lines self))
    (indices (state_of (parse_indices self))).
Proof.
  intros Hall. destruct (parse_indices_frame self) as (Δ & o & HΔ & Hl & H).
  specialize (H (indices self)). rewrite set_indices_id in H. rewrite H.
  replace (indices (state_of (outcome_map (set_indices (Δ ∪ indices self)) o)))
    with (Δ ∪ indices self) by by destruct o.
  intros k v [?%HΔ|[_ ?]]%lookup_union_Some_raw; [done|]. by eapply Hall.
Qed.

(** C9: after [read] and [parse], every line number in the symbol index is a
    position of the final line sequence.  This holds for the object the
    pipeline leaves whether [parse] returned or raised. *)
Theorem index_line_numbers_valid (buf name : string) (n : nat) :
  let final := state_of (parse (read buf init)) in
  indices final !! name = Some n → 0 ≤ n < length (lines final).
Proof.
  intros final Hn. split; [lia|]. unfold final, parse in *.
  rewrite parse_indices_lines.
  eapply (parse_indices_bound (expand_auto_directives (read buf init))); [|done].
  rewrite expand_auto_directives_indices. simpl. apply map_Forall_empty.
Qed.

(** ** Method signatures without a class *)

Lemma index_directive_cls lineno line self :
  cls (index_directive lineno line self) = cls self.
Proof.
  destruct (index_directive_frame lineno line self) as (Δ & _ & H).
  specialize (H (indices self)). rewrite set_indices_id in H. by rewrite H.
Qed.

Lemma index_line_raises lineno line self :
  is_Some (search method_re line) → cls self = None →
  ∃ s, index_line lineno line self = TypeError s.
Proof.
  intros [m Hm] Hc. unfold index_line, index_method.
  rewrite Hm, index_directive_cls, Hc. eauto.
Qed.

Lemma index_line_returned lineno line self s :
  index_line lineno line self = Returned s →
  ∃ i, s = set_indices i (track_context line self).
Proof.
  destruct (index_directive_frame lineno line self) as (Δ1 & _ & H1).
  destruct (index_method_frame lineno line self) as (Δ2 & o2 & _ & Ho2 & H2).
  specialize (H1 (indices self)). rewrite set_indices_id in H1.
  unfold index_line. rewrite H1, H2.
  destruct o2 as [s2|s2]; simpl in *; [|done]. subst s2.
  intros [= <-]. rewrite track_context_set_indices. eauto.
Qed.

Lemma track_lines_set_indices i ls self :
  foldl (λ s l, track_context l s) (set_indices i self) ls
  = set_indices i (foldl (λ s l, track_context l s) self ls).
Proof.
  revert self. induction ls as [|l ls IH]; intros self; [done|].
  simpl. by rewrite track_context_set_indices, IH.
Qed.

Lemma index_lines_raises n pre line post self :
  is_Some (search method_re line) →
  cls (foldl (λ s l, track_context l s) self pre) = None →
  ∃ s, index_lines n (pre ++ line :: post) self = TypeError s.
Proof.
  intros Hm. revert n self. induction pre as [|l pre IH]; intros n self Hc.
  - simpl in *. destruct (index_line_raises n line self Hm Hc) as [s ->]. eauto.
  - simpl in *. destruct (index_line n l self) as [s|s] eqn:Hl; [|eauto].
    apply index_line_returned in Hl as [i ->]. apply IH.
    by rewrite track_lines_set_indices.
Qed.

(** C10: if a line has the shape of a rendered method signature and the
    class context is still absent after the lines before it, the indexing
    pass raises the [TypeError] of adding [None] and a string; it neither
    skips the line nor indexes the bare name. *)
Theorem method_signature_without_class_raises
    (pre post : list string) (line : string) (self : RSTParser) :
  lines self = pre ++ line :: post →
  is_Some (search method_re line) →
  cls (foldl (λ s l, track_context l s) (reset_context self) pre) = None →
  ∃ s, parse_indices self = TypeError s.
Proof.
  intros Hl Hm Hc. unfold parse_indices.
  replace (lines (reset_context self)) with (pre ++ line :: post) by done.
  by apply index_lines_raises.
Qed.

End Passes.

(** ** Documents without directives *)

Section Plain.
Context {backend : Backend}.

Lemma expand_loop_plain ls out self :
  (∀ l, l ∈ ls → parse_directive l = (None, None)) →
  (foldl (λ acc line, expand_line line acc) (out, self) ls).1 = out ++ ls.
Proof.
  revert out self. induction ls as [|line ls IH]; intros out self Hp.
  - by rewrite (right_id_L [] (++)).
  - cbn [foldl]. destruct (expand_line_shape line out self) as (extra & -> & He).
    rewrite He by (apply Hp; by left).
    rewrite IH by (intros l Hl; apply Hp; by right).
    by rewrite <- (assoc_L (++)).
Qed.

Lemma expand_auto_directives_plain self :
  (∀ l, l ∈ lines self → parse_directive l = (None, None)) →
  lines (expand_auto_directives self) = lines self.
Proof.
  intros Hp. unfold expand_auto_directives.
  pose proof (expand_loop_plain (lines (reset_context self)) [] (reset_context self) Hp) as H.
  destruct (foldl _ _ _) as [out s]. simpl in *. done.
Qed.

Lemma index_line_plain lineno line self :
  parse_directive line = (None, None) → search method_re line = None →
  index_line lineno line self = Returned (track_context line self).
Proof.
  intros Hd Hm. unfold index_line, index_method, index_directive.
  by rewrite Hd, Hm.
Qed.

Lemma index_lines_plain n ls self :
  (∀ l, l ∈ ls → parse_directive l = (None, None)) →
  (∀ l, l ∈ ls → search method_re l = None) →
  ∃ s, index_lines n ls self = Returned s ∧ lines s = lines self
       ∧ indices s = indices self.
Proof.
  revert n self. induction ls as [|line ls IH]; intros n self Hd Hm.
  - by exists self.
  - simpl. rewrite index_line_plain by (apply Hd || apply Hm; by left).
    destruct (IH (S n) (track_context line self)) as (s & -> & Hl & Hi).
    { intros l Hl. apply Hd. by right. }
    { intros l Hl. apply Hm. by right. }
    exists s. by rewrite Hl, Hi, track_context_lines, track_context_indices.
Qed.

(** C5 (amended): when no line of the document holds a directive, expansion
    leaves the lines as they are; when, in addition, no line has the shape
    of a rendered method signature, the indexing pass returns and the symbol
    index stays empty. *)
Theorem document_without_directives (self : RSTParser) :
  (∀ l, l ∈ lines self → parse_directive l = (None, None)) →
  lines (expand_auto_directives self) = lines self
  ∧ ((∀ l, l ∈ lines self → search method_re l = None) →
     indices self = ∅ →
     ∃ s, parse self = Returned s ∧ lines s = lines self ∧ indices s = ∅).
Proof.
  intros Hd. pose proof (expand_auto_directives_plain self Hd) as He.
  split; [done|]. intros Hm Hi. unfold parse, parse_indices.
  destruct (index_lines_plain 0 (lines (expand_auto_directives self))
              (reset_context (expand_auto_directives self))) as (s & Hs & Hl & Hi').
  { by rewrite He. }
  { by rewrite He. }
  exists s. split; [exact Hs|]. split.
  - by rewrite Hl.
  - rewrite Hi'. etrans; [apply (expand_auto_directives_indices self)|done].
Qed.

End Plain.

(** C5, as stated: the document holds no directive, yet the index is not
    empty after the indexing pass. *)
Lemma document_without_directives_counterexample :
  (∀ l, l ∈ pasted_pydoc → parse_directive l = (None, None))
  ∧ lines (@expand_auto_directives str_backend (document pasted_pydoc))
    = pasted_pydoc
  ∧ indices (state_of (@parse str_backend (document pasted_pydoc)))
      !! "str.lower" = Some 1.
Proof.
  split_and!.
  - intros l Hl. repeat (apply elem_of_cons in Hl as [->|Hl]; [by vm_compute|]).
    by apply elem_of_nil in Hl.
  - by vm_compute.
  - by vm_compute.
Qed.

Lemma document_without_directives_witness :
  lines (@expand_auto_directives str_backend (document ["Title"; "====="; "text"]))
    = ["Title"; "====="; "text"]
  ∧ ∃ s, @parse str_backend (document ["Title"; "====="; "text"]) = Returned s
         ∧ lines s = ["Title"; "====="; "text"] ∧ indices s = ∅.
Proof.
  assert (∀ l, l ∈ ["Title"; "====="; "text"] → parse_directive l = (None, None)
               ∧ search method_re l = None) as H.
  { intros l Hl. repeat (apply elem_of_cons in Hl as [->|Hl]; [by vm_compute|]).
    by apply elem_of_nil in Hl. }
  destruct (@document_without_directives str_backend
              (document ["Title"; "====="; "text"])) as [He Hi].
  { intros l Hl. by apply H. }
  split; [exact He|]. apply Hi; [|reflexivity]. intros l Hl. by apply H.
Defined.

(** ** Indexing of directives *)

Section Indexing.
Context {backend : Backend}.

Lemma parse_directive_key line key val :
  parse_directive line = (Some key, Some val) →
  key ≠ "" ∧ all_chars (not_ch ":") key = true ∧ all_chars dot val = true.
Proof.
  intros (pre & c & rest & _ & (s1 & s2 & _ & _ & ? & ? & _ & ?) & _)%parse_directive_sound.
  done.
Qed.

Lemma index_directive_allowed lineno line key val self :
  parse_directive line = (Some key, Some val) →
  key ∈ DIRECTIVES_TO_INCLUDE → val ≠ "" →
  index_directive lineno line self = register_index val lineno None None self.
Proof.
  intros Hp Hk Hv. unfold index_directive. rewrite Hp. simpl.
  rewrite bool_decide_eq_true_2 by done. by destruct val.
Qed.

Lemma register_index_resolved name lineno m c self a n :
  resolve_name (remove args_re name) m c self = Some (String a n) →
  register_index name lineno m c self
  = set_indices (<[String a n := lineno]> (indices self)) self.
Proof. intros Hr. unfold register_index. by rewrite Hr. Qed.


Lemma index_line_no_method lineno line self :
  search method_re line = None →
  index_line lineno line self
  = Returned (track_context line (index_directive lineno line self)).
Proof. intros Hm. unfold index_line, index_method. by rewrite Hm. Qed.

(** No parsed name holds a colon, so the entries of the list that are
    spelled with one never apply. *)
Lemma colon_names_never_parsed line key val :
  parse_directive line = (Some key, Some val) →
  key ∉ ["c:function"; "c:var"; "c:type"].
Proof.
  intros (_ & Hk & _)%parse_directive_key Hin.
  repeat (apply elem_of_cons in Hin as [->|Hin]; [by vm_compute in Hk|]).
  by apply elem_of_nil in Hin.
Qed.


End Indexing.


(** ** Import errors *)

Section ImportErrors.
Context (b : Backend).

Lemma is_valid_name_quiet n : @is_valid_name (not_found_on_error b) n = @is_valid_name b n.
Proof. unfold is_valid_name. simpl. by destruct (@locate b n). Qed.

Lemma resolve_name_quiet name m c self :
  @resolve_name (not_found_on_error b) name m c self = @resolve_name b name m c self.
Proof. unfold resolve_name. simpl. by rewrite !is_valid_name_quiet. Qed.

Lemma expand_line_quiet line acc :
  @expand_line (not_found_on_error b) line acc = @expand_line b line acc.
Proof.
  unfold expand_line, pydoc_lines_for. destruct acc as [out self].
  destruct (parse_directive line) as [key val].
  by rewrite resolve_name_quiet.
Qed.

Lemma expand_auto_directives_quiet self :
  @expand_auto_directives (not_found_on_error b) self = @expand_auto_directives b self.
Proof.
  unfold expand_auto_directives.
  assert (∀ ls acc, foldl (λ acc line, @expand_line (not_found_on_error b) line acc) acc ls
                    = foldl (λ acc line, @expand_line b line acc) acc ls) as ->;
    [|done].
  induction ls as [|l ls IH]; intros acc; [done|].
  simpl. by rewrite expand_line_quiet, IH.
Qed.

Lemma register_index_quiet name lineno m c self :
  @register_index (not_found_on_error b) name lineno m c self = @register_index b name lineno m c self.
Proof. unfold register_index. by rewrite resolve_name_quiet. Qed.

Lemma index_line_quiet lineno line self :
  @index_line (not_found_on_error b) lineno line self = @index_line b lineno line self.
Proof.
  unfold index_line, index_method, index_directive.
  destruct (parse_directive line) as [key val].
  destruct (_ && _); rewrite ?register_index_quiet;
    destruct (search method_re line); simpl; try done;
    match goal with |- context [cls ?s] => destruct (cls s) end;
    by rewrite ?register_index_quiet.
Qed.

Lemma index_lines_quiet n ls self :
  @index_lines (not_found_on_error b) n ls self = @index_lines b n ls self.
Proof.
  revert n self. induction ls as [|l ls IH]; intros n self; [done|].
  simpl. rewrite index_line_quiet. destruct (index_line n l self); [apply IH|done].
Qed.

Lemma parse_indices_quiet self :
  @parse_indices (not_found_on_error b) self = @parse_indices b self.
Proof. unfold parse_indices. apply index_lines_quiet. Qed.

Lemma resolve_name_unresolved name (self : RSTParser) :
  (∀ n, n ∈ candidates name (module self) (cls self) →
        @locate b n = ErrorDuringImport ∨ @locate b n = NotFound) →
  @resolve_name b name None None self = None.
Proof.
  intros H. rewrite resolve_name_candidates.
  destruct (List.find _ _) as [n|] eqn:Hf; [|done].
  apply find_some in Hf as [Hin Hv]. apply list_elem_of_In in Hin.
  unfold is_valid_name in Hv. by destruct (H n Hin) as [He|He]; rewrite He in Hv.
Qed.

(** C3: an import error during validation counts as "not found".  A name
    whose import fails is not valid; replacing every import error of the
    backend by a plain failure changes neither pass; and for a directive
    whose candidate names all fail to import or are not found, resolution
    returns [None], no documentation lines are produced, the expansion keeps
    the directive line and adds nothing after it, and the directive writes
    nothing to the index.  (The passes have no channel for diagnostics.) *)
Theorem import_error_is_not_found :
  (∀ name, @locate b name = ErrorDuringImport → @is_valid_name b name = false)
  ∧ (∀ self,
       @expand_auto_directives (not_found_on_error b) self = @expand_auto_directives b self
       ∧ @parse_indices (not_found_on_error b) self = @parse_indices b self
       ∧ @parse (not_found_on_error b) self = @parse b self)
  ∧ (∀ name self,
       (∀ n, n ∈ candidates name (module self) (cls self) →
             @locate b n = ErrorDuringImport ∨ @locate b n = NotFound) →
       @resolve_name b name None None self = None
       ∧ @pydoc_lines_for b name self = [])
  ∧ (∀ name lineno self,
       (∀ n, n ∈ candidates (remove args_re name) (module self) (cls self) →
             @locate b n = ErrorDuringImport ∨ @locate b n = NotFound) →
       @register_index b name lineno None None self = self)
  ∧ (∀ line key val out self,
       parse_directive line = (Some key, Some val) →
       let self' := track_context line self in
       (∀ n, n ∈ candidates val (module self') (cls self') →
             @locate b n = ErrorDuringImport ∨ @locate b n = NotFound) →
       @expand_line b line (out, self) = (out ++ [line], self'))
  ∧ (∀ line key val lineno self,
       parse_directive line = (Some key, Some val) →
       (∀ n, n ∈ candidates (remove args_re val) (module self) (cls self) →
             @locate b n = ErrorDuringImport ∨ @locate b n = NotFound) →
       @index_directive b lineno line self = self).
Proof.
  split_and!.
  - intros name H. unfold is_valid_name. by rewrite H.
  - intros self. split_and!.
    + apply expand_auto_directives_quiet.
    + apply parse_indices_quiet.
    + unfold parse. by rewrite expand_auto_directives_quiet, parse_indices_quiet.
  - intros name self H. pose proof (resolve_name_unresolved name self H) as Hr.
    split; [done|by unfold pydoc_lines_for; rewrite Hr].
  - intros name lineno self H. unfold register_index.
    by rewrite (resolve_name_unresolved _ self H).
  - intros line key val out self Hp self' H. unfold expand_line.
    rewrite Hp. fold self'. unfold pydoc_lines_for.
    change (default "" (Some val)) with val.
    rewrite (resolve_name_unresolved val self' H).
    rewrite (right_id_L [] (++)). by destruct (_ && _).
  - intros line key val lineno self Hp H. unfold index_directive, register_index.
    rewrite Hp. change (default "" (Some val)) with val.
    rewrite (resolve_name_unresolved _ self H).
    by destruct (_ && _).
Qed.

End ImportErrors.

(** The directive of the design document's example, with a backend whose
    every import fails. *)
Lemma import_error_is_not_found_witness :
  @expand_line broken_backend ".. autofunction:: nonexistent_symbol"
    ([], reset_context init)
  = ([".. autofunction:: nonexistent_symbol"],
     track_context ".. autofunction:: nonexistent_symbol" (reset_context init))
  ∧ @index_directive broken_backend 0 ".. autofunction:: nonexistent_symbol"
      (reset_context init) = reset_context init.
Proof.
  destruct (import_error_is_not_found broken_backend) as (_ & _ & _ & _ & He & Hi).
  split.
  - refine (He ".. autofunction:: nonexistent_symbol" "autofunction"
              "nonexistent_symbol" [] (reset_context init) _ _);
      [by vm_compute|]. intros n _. by left.
  - refine (Hi ".. autofunction:: nonexistent_symbol" "autofunction"
              "nonexistent_symbol" 0 (reset_context init) _ _);
      [by vm_compute|]. intros n _. by left.
Defined.

(** ** The example of the design document *)

Section Widget.
Context {backend : Backend}.

Lemma track_context_module_pkg self :
  track_context ".. module:: pkg" self = set_module (Some "pkg") self.
Proof. by vm_compute. Qed.

Lemma track_context_autoclass_Widget self :
  track_context ".. autoclass:: Widget" self = set_cls (Some "Widget") self.
Proof. by vm_compute. Qed.

(** C2: for the two lines [.. module:: pkg] and [.. autoclass:: Widget],
    with a backend in which [pkg.Widget] exists (and has no attribute named
    [Widget]) and whose documentation for it is a two-line banner followed by
    the plain text lines [L1] and [L2], expansion yields the two lines
    followed by [L1] and [L2], and the indexing pass then returns with
    [pkg.Widget] recorded at line 1. *)
Theorem widget_scenario (b1 b2 L1 L2 : string) :
  locate "pkg.Widget" = Found →
  locate "pkg.Widget.Widget" ≠ Found →
  splitlines (render_doc "pkg.Widget") = [b1; b2; L1; L2] →
  (∀ l, l ∈ [L1; L2] →
        parse_directive l = (None, None) ∧ search method_re l = None) →
  let doc := document [".. module:: pkg"; ".. autoclass:: Widget"] in
  lines (expand_auto_directives doc)
    = [".. module:: pkg"; ".. autoclass:: Widget"; L1; L2]
  ∧ ∃ s, parse doc = Returned s
         ∧ lines s = [".. module:: pkg"; ".. autoclass:: Widget"; L1; L2]
         ∧ indices s !! "pkg.Widget" = Some 1.
Proof.
  intros Hv Hn Hdoc Hplain doc.
  assert (expand_auto_directives doc
          = mkRST [".. module:: pkg"; ".. autoclass:: Widget"; L1; L2] ∅
              (Some "pkg") (Some "Widget")) as He.
  { unfold expand_auto_directives, doc, document.
    change (lines (reset_context (set_lines ?l init))) with l.
    change (reset_context (set_lines ?l init)) with (mkRST l ∅ None None).
    cbn [foldl]. unfold expand_line at 2.
    rewrite track_context_module_pkg.
    replace (parse_directive ".. module:: pkg") with (Some "module", Some "pkg")
      by (by vm_compute).
    replace (truthy (Some "module") && startswith (default "" (Some "module")) "auto"
             && truthy (Some "pkg")) with false by (by vm_compute).
    unfold expand_line. rewrite track_context_autoclass_Widget.
    replace (parse_directive ".. autoclass:: Widget")
      with (Some "autoclass", Some "Widget") by (by vm_compute).
    replace (truthy (Some "autoclass") && startswith (default "" (Some "autoclass")) "auto"
             && truthy (Some "Widget")) with true by (by vm_compute).
    unfold pydoc_lines_for. rewrite resolve_name_candidates.
    replace (candidates _ _ _)
      with ["pkg.Widget.Widget"; "pkg.Widget"; "Widget.Widget"; "Widget"]
      by (by vm_compute).
    cbn [List.find]. unfold is_valid_name. rewrite Hv.
    destruct (locate "pkg.Widget.Widget"); [done| |]; by rewrite Hdoc. }
  split; [by rewrite He|].
  unfold parse. rewrite He. unfold parse_indices.
  change (reset_context (mkRST ?l ?i ?m ?c)) with (mkRST l i None None).
  cbn [lines index_lines].
  (* line 0 *)
  rewrite (index_line_no_method 0 ".. module:: pkg") by (by vm_compute).
  match goal with |- context [index_directive 0 ?l ?s] =>
    destruct (index_directive_frame 0 l s) as (i0 & _ & H0);
    specialize (H0 (indices s)); rewrite set_indices_id in H0; rewrite H0
  end.
  rewrite track_context_module_pkg.
  (* line 1 *)
  set (s1 := set_module _ _).
  assert ("autoclass" ∈ DIRECTIVES_TO_INCLUDE) as Hin
    by (unfold DIRECTIVES_TO_INCLUDE; in_list).
  assert (resolve_name (remove args_re "Widget") None None s1 = Some "pkg.Widget")
    as Hr.
  { replace (remove args_re "Widget") with "Widget" by (by vm_compute).
    rewrite resolve_name_candidates.
    replace (candidates _ _ _) with ["pkg.Widget"; "pkg.Widget"; "Widget"; "Widget"]
      by (by vm_compute).
    cbn [List.find]. unfold is_valid_name. by rewrite Hv. }
  rewrite (index_line_no_method 1 ".. autoclass:: Widget") by (by vm_compute).
  rewrite (index_directive_allowed 1 _ "autoclass" "Widget") by (done || by vm_compute).
  rewrite (register_index_resolved _ _ _ _ _ _ _ Hr).
  rewrite track_context_autoclass_Widget.
  (* the rendered lines *)
  destruct (Hplain L1) as [Hd1 Hm1]; [in_list|].
  destruct (Hplain L2) as [Hd2 Hm2]; [in_list|].
  rewrite (index_line_plain 2 L1) by done.
  rewrite (index_line_plain 3 L2) by done.
  eexists. split; [done|].
  rewrite !track_context_lines, !track_context_indices.
  split; [done|]. apply lookup_insert_eq.
Qed.

End Widget.

Lemma widget_scenario_witness :
  let doc := document [".. module:: pkg"; ".. autoclass:: Widget"] in
  lines (@expand_auto_directives widget_backend doc)
    = [".. module:: pkg"; ".. autoclass:: Widget"; "L1"; "L2"]
  ∧ ∃ s, @parse widget_backend doc = Returned s
         ∧ lines s = [".. module:: pkg"; ".. autoclass:: Widget"; "L1"; "L2"]
         ∧ indices s !! "pkg.Widget" = Some 1.
Proof.
  apply (@widget_scenario widget_backend
           "Python Library Documentation: class Widget in pkg" "" "L1" "L2").
  - by vm_compute.
  - by vm_compute.
  - by vm_compute.
  - intros l Hl. repeat (apply elem_of_cons in Hl as [->|Hl]; [by vm_compute|]).
    by apply elem_of_nil in Hl.
Defined.

(** Line numbers of the index of the example, after [read] and [parse]. *)
Lemma index_line_numbers_valid_witness :
  let buf := ".. module:: pkg" +:+ nl +:+ ".. autoclass:: Widget" +:+ nl in
  0 ≤ 1 < length (lines (state_of (@parse widget_backend (read buf init)))).
Proof.
  intros buf.
  apply (@index_line_numbers_valid widget_backend buf "pkg.Widget" 1).
  by vm_compute.
Defined.

(** A method signature of rendered documentation as the first line. *)
Lemma method_signature_without_class_raises_witness :
  ∃ s, @parse_indices str_backend
         (document [" |  " +:+ bold "lower" +:+ "(self, /)"]) = TypeError s.
Proof.
  apply (@method_signature_without_class_raises str_backend [] []
           (" |  " +:+ bold "lower" +:+ "(self, /)")).
  - reflexivity.
  - eexists. vm_compute. reflexivity.
  - reflexivity.
Defined.

(** ** read *)

(** Where the pattern matches nowhere, [re.sub] returns the text. *)
Lemma sub_from_no_match r repl prev s :
  search_from r prev s = None → sub_from r repl prev 0 s = s.
Proof.
  revert prev. induction s as [|c s IH]; intros prev; simpl.
  - destruct (exec r prev "") as [|[[m g] s'] l]; [done|discriminate].
  - destruct (exec r prev (String c s)) as [|[[m g] s'] l]; [|discriminate].
    intros Hs. by rewrite IH.
Qed.

Lemma normalize_no_block buf :
  search autosummary_re buf = None → normalize buf = buf.
Proof. apply sub_from_no_match. Qed.

(** After a first line the block is rewritten, one pseudo-directive per
    entry. *)
Example read_autosummary_after_title :
  lines (read ("Title" +:+ nl +:+ autosummary_block) init)
  = ["Title"; ".. autosummary_:: foo"; ".. autosummary_:: bar"; ""].
Proof. by vm_compute. Qed.

(** C7: the same block at the very start of the text is not rewritten, since
    the pattern asks for a newline before the directive: [read] leaves the
    five lines of the block as they are. *)
Theorem read_autosummary_at_start :
  normalize autosummary_block = autosummary_block
  ∧ lines (read autosummary_block init)
    = [".. autosummary::"; ""; "   foo"; "   bar"; ""].
Proof. by vm_compute. Qed.

(** Nor is a block that follows another one directly: the blank line that
    ends the first block is consumed with it. *)
Example read_autosummary_twice :
  lines (read (nl +:+ autosummary_block +:+ autosummary_block) init)
  = [""; ".. autosummary_:: foo"; ".. autosummary_:: bar"; "";
     ".. autosummary::"; ""; "   foo"; "   bar"; ""].
Proof. by vm_compute. Qed.

(** * Further properties *)

(** ** The first match of a pattern *)

Lemma all_chars_app p s t :
  all_chars p (s +:+ t) = all_chars p s && all_chars p t.
Proof.
  induction s as [|c s IH]; [done|].
  rewrite app_cons. simpl. by rewrite IH, andb_assoc.
Qed.

Lemma exec_lit s prev t : exec (lit s) prev (s +:+ t) = [(s, [], t)].
Proof.
  revert prev. induction s as [|c s IH]; intros prev; [done|].
  rewrite app_cons. cbn [lit exec]. unfold ch at 1. rewrite Ascii.eqb_refl.
  cbn [mbind list_bind app]. rewrite IH. cbn [mbind list_bind app].
  by rewrite app_cons, app_empty_l.
Qed.

Lemma exec_lit_mismatch a s prev c t :
  c ≠ a → exec (lit (String a s)) prev (String c t) = [].
Proof.
  intros Hc. cbn [lit exec]. unfold ch at 1.
  by rewrite (proj2 (Ascii.eqb_neq c a) Hc).
Qed.

Lemma runs_cons p s : ∃ l, runs p s = ("", s) :: l.
Proof. destruct s; simpl; eauto. Qed.

Lemma last_runs_longest p a b :
  all_chars p a = true → starts_in p b = false →
  last (runs p (a +:+ b)) = Some (a, b).
Proof.
  intros Ha Hb. induction a as [|c a IH].
  - rewrite app_empty_l. destruct b as [|c b]; [done|]. simpl in *. by rewrite Hb.
  - simpl in Ha. apply andb_true_iff in Ha as [Hc Ha]. rewrite app_cons.
    simpl. rewrite Hc. destruct (runs_cons p (a +:+ b)) as [l Hl].
    specialize (IH Ha). rewrite Hl in *.
    change (last ((λ '(a0, b0), (String c a0, b0)) <$> (("", a +:+ b) :: l))
            = Some (String c a, b)).
    by rewrite fmap_last, IH.
Qed.

(** A greedy repetition first takes the longest run. *)
Lemma head_exec_rep_greedy pl p prev a b :
  all_chars p a = true → starts_in p b = false → (pl = true → a ≠ "") →
  head (exec (Rep true pl p) prev (a +:+ b)) = Some (a, [], b).
Proof.
  intros Ha Hb Hne. pose proof (last_runs_longest p a b Ha Hb) as Hl.
  cbn [exec]. rewrite head_fmap, head_reverse.
  destruct pl; [|by rewrite Hl].
  destruct (runs_cons p (a +:+ b)) as [l Hr]. rewrite Hr in *.
  destruct l as [|x l].
  - simpl in Hl. injection Hl as <- _. by destruct Hne.
  - change (last (tail (("", a +:+ b) :: x :: l))) with (last (("", a +:+ b) :: x :: l)).
    by rewrite Hl.
Qed.

(** When the first match of the first part can be continued, the first match
    of the sequence continues it. *)
Lemma head_exec_cat_first r1 r2 prev s c1 g1 s1 c2 g2 s2 :
  head (exec r1 prev s) = Some (c1, g1, s1) →
  head (exec r2 (last_char prev c1) s1) = Some (c2, g2, s2) →
  head (exec (r1 · r2) prev s) = Some (c1 +:+ c2, g1 ++ g2, s2).
Proof.
  cbn [exec]. destruct (exec r1 prev s) as [|x l]; [done|].
  intros [= ->]. cbn [mbind list_bind].
  destruct (exec r2 (last_char prev c1) s1) as [|y l2]; [done|].
  by intros [= ->].
Qed.

Lemma head_exec_grp_first r prev s c g s' :
  head (exec r prev s) = Some (c, g, s') →
  head (exec (Grp r) prev s) = Some (c, c :: g, s').
Proof.
  cbn [exec]. destruct (exec r prev s) as [|x l]; [done|]. by intros [= ->].
Qed.

Lemma head_exec_lit s prev t : head (exec (lit s) prev (s +:+ t)) = Some (s, [], t).
Proof. by rewrite exec_lit. Qed.

Lemma search_head r s m : head (exec r None s) = Some m → search r s = Some m.
Proof.
  unfold search. destruct s; simpl; destruct (exec r None _); by intros [= ->].
Qed.

Lemma starts_in_app p s t : s ≠ "" → starts_in p (s +:+ t) = starts_in p s.
Proof. by destruct s. Qed.

(** ** parse_directive on a well-formed directive *)

Lemma parse_directive_of_text (s1 k s2 v : string) :
  all_chars sp s1 = true →
  k ≠ "" → all_chars (not_ch ":") k = true → starts_in sp k = false →
  all_chars sp s2 = true →
  all_chars dot v = true → starts_in sp v = false →
  parse_directive (".." +:+ s1 +:+ k +:+ "::" +:+ s2 +:+ v) = (Some k, Some v).
Proof.
  intros Hs1 Hk Hkc Hks Hs2 Hv Hvs.
  apply parse_directive_search. exists (".." +:+ s1 +:+ k +:+ "::" +:+ s2 +:+ v), "".
  apply search_head. unfold directive_re.
  rewrite <- (app_empty_r v) at 1.
  assert (∀ prev, head (exec (Grp (star dot)) prev (v +:+ ""))
                  = Some (v, [v], "")) as H6.
  { intros prev. apply head_exec_grp_first. by apply head_exec_rep_greedy. }
  assert (∀ prev, head (exec (star sp · Grp (star dot)) prev (s2 +:+ v +:+ ""))
                  = Some (s2 +:+ v, [] ++ [v], "")) as H5.
  { intros prev. eapply head_exec_cat_first; [|apply H6].
    apply head_exec_rep_greedy; [done| |done]. by rewrite app_empty_r. }
  assert (∀ prev, head (exec (lit "::" · star sp · Grp (star dot)) prev
                          ("::" +:+ s2 +:+ v +:+ ""))
                  = Some ("::" +:+ s2 +:+ v, [] ++ [] ++ [v], "")) as H4.
  { intros prev. eapply head_exec_cat_first; [apply head_exec_lit|apply H5]. }
  assert (∀ prev, head (exec (Grp (plus (not_ch ":")) · lit "::" · star sp
                              · Grp (star dot)) prev
                          (k +:+ "::" +:+ s2 +:+ v +:+ ""))
                  = Some (k +:+ "::" +:+ s2 +:+ v, [k] ++ [] ++ [] ++ [v], "")) as H3.
  { intros prev. eapply head_exec_cat_first; [|apply H4].
    apply head_exec_grp_first. by apply head_exec_rep_greedy. }
  assert (∀ prev, head (exec (star sp · Grp (plus (not_ch ":")) · lit "::"
                              · star sp · Grp (star dot)) prev
                          (s1 +:+ k +:+ "::" +:+ s2 +:+ v +:+ ""))
                  = Some (s1 +:+ k +:+ "::" +:+ s2 +:+ v,
                          [] ++ [k] ++ [] ++ [] ++ [v], "")) as H2.
  { intros prev. eapply head_exec_cat_first; [|apply H3].
    apply head_exec_rep_greedy; [done| |done]. by rewrite starts_in_app. }
  exact (head_exec_cat_first _ _ _ _ _ _ _ _ _ _ (head_exec_lit ".." None _) (H2 _)).
Qed.

(** X1: a line made of two dots, spaces, a name, two colons, spaces and a
    value is parsed into that name and that value, provided the name is not
    empty, holds no colon and does not begin with a space, and the value
    holds no newline and does not begin with a space. *)
Theorem parse_directive_formatted (s1 k s2 v : string) :
  all_chars sp s1 = true →
  k ≠ "" → all_chars (not_ch ":") k = true → starts_in sp k = false →
  all_chars sp s2 = true →
  all_chars dot v = true → starts_in sp v = false →
  parse_directive (".." +:+ s1 +:+ k +:+ "::" +:+ s2 +:+ v) = (Some k, Some v).
Proof. apply parse_directive_of_text. Qed.

Lemma parse_directive_formatted_witness :
  parse_directive (".." +:+ " " +:+ "autoclass" +:+ "::" +:+ " " +:+ "pkg.Widget(x)")
  = (Some "autoclass", Some "pkg.Widget(x)").
Proof. by apply parse_directive_formatted. Defined.

(** ** Laws of substitution *)

Lemma sub_from_skip r repl prev a b :
  sub_from r repl prev (String.length a) (a +:+ b)
  = sub_from r repl (last_char prev a) 0 b.
Proof.
  revert prev. induction a as [|c a IH]; intros prev; [done|].
  rewrite app_cons. simpl. apply IH.
Qed.

Lemma sub_from_unmatched r repl prev c s :
  exec r prev (String c s) = [] →
  sub_from r repl prev 0 (String c s) = String c (sub_from r repl (Some c) 0 s).
Proof. intros He. simpl. by rewrite He. Qed.

Lemma sub_from_matched r repl prev s m g rest :
  head (exec r prev s) = Some (m, g, rest) → m ≠ "" →
  sub_from r repl prev 0 s
  = repl g +:+ sub_from r repl (last_char prev m) 0 rest.
Proof.
  intros Hh Hm. destruct (exec r prev s) as [|x l] eqn:He; [done|].
  injection Hh as ->. assert ((m, g, rest) ∈ exec r prev s) as Hin.
  { rewrite He. by left. }
  apply exec_spec in Hin as [-> _]. destruct m as [|c m]; [done|].
  rewrite app_cons in *. simpl. rewrite He. simpl.
  by rewrite sub_from_skip.
Qed.

Lemma sub_from_end r repl prev :
  exec r prev "" = [] → sub_from r repl prev 0 "" = "".
Proof. intros He. simpl. by rewrite He. Qed.

(** A pattern that cannot match at a position leaves no element in the
    matcher's list there. *)
Lemma exec_nil r prev s :
  (∀ c g, ¬ (∃ s', s = c +:+ s' ∧ matches r prev c g)) → exec r prev s = [].
Proof.
  intros H. destruct (exec r prev s) as [|[[c g] s'] l] eqn:He; [done|].
  destruct (H c g). exists s'. apply exec_spec. rewrite He. by left.
Qed.

(** ** Argument lists *)

Lemma args_re_unmatched prev c s :
  c ≠ "("%char → exec args_re prev (String c s) = [].
Proof.
  intros Hc. apply exec_nil. intros m g (s' & Hs & Hm).
  unfold args_re in Hm. inv_matches. rewrite !app_cons in Hs. congruence.
Qed.

Lemma args_re_end prev : exec args_re prev "" = [].
Proof. done. Qed.

Lemma remove_args_from prev name args :
  all_chars (not_ch "(") name = true →
  args ≠ "" → all_chars dot args = true →
  sub_from args_re (λ _, "") prev 0 (name +:+ "(" +:+ args) = name.
Proof.
  intros Hn Ha Hd. revert prev. induction name as [|c name IH]; intros prev.
  - rewrite app_empty_l, <- (app_empty_r args).
    erewrite sub_from_matched; [by rewrite sub_from_end| |].
    + unfold args_re. eapply head_exec_cat_first; [apply head_exec_lit|].
      by apply head_exec_rep_greedy.
    + done.
  - simpl in Hn. apply andb_true_iff in Hn as [Hc Hn]. rewrite app_cons.
    rewrite sub_from_unmatched, IH; [done..|].
    apply args_re_unmatched. intros ->. done.
Qed.

Lemma remove_args_none prev name :
  all_chars (not_ch "(") name = true →
  sub_from args_re (λ _, "") prev 0 name = name.
Proof.
  revert prev. induction name as [|c name IH]; intros prev Hn; [done|].
  simpl in Hn. apply andb_true_iff in Hn as [Hc Hn].
  rewrite sub_from_unmatched, IH; [done..|].
  apply args_re_unmatched. intros ->. done.
Qed.

Section Arguments.
Context {backend : Backend}.

(** X2: [register_index] ignores an argument list: a name followed by an
    opening parenthesis and at least one more character (none of them a
    newline) is registered exactly as the bare name is, provided the name
    itself holds no parenthesis. *)
Theorem register_index_ignores_arguments
    (name args : string) (lineno : nat) (m c : option string) (self : RSTParser) :
  all_chars (not_ch "(") name = true →
  args ≠ "" → all_chars dot args = true →
  register_index (name +:+ "(" +:+ args) lineno m c self
  = register_index name lineno m c self.
Proof.
  intros Hn Ha Hd. unfold register_index, remove, sub.
  by rewrite remove_args_from, remove_args_none.
Qed.

End Arguments.

Lemma register_index_ignores_arguments_witness :
  @register_index str_backend ("str.lower" +:+ "(" +:+ "self, /)") 3 None None init
  = @register_index str_backend "str.lower" 3 None None init.
Proof. by apply (@register_index_ignores_arguments str_backend). Defined.

(** ** track_context *)

Lemma key_in_None names : key_in None names = false.
Proof. done. Qed.

Lemma track_context_module line self :
  module (track_context line self)
  = match parse_directive line with
    | (Some k, Some v) =>
        if bool_decide (k ∈ ["module"; "currentmodule"; "automodule"])
        then Some v else module self
    | _ => module self
    end.
Proof.
  unfold track_context.
  destruct (parse_directive_cases line) as [->|(k & v & ->)]; simpl.
  - destruct (search pydoc_class_re line), (rmatch class_re _); done.
  - destruct (bool_decide (k ∈ ["module"; "currentmodule"; "automodule"])),
      (bool_decide (k ∈ ["class"; "autoclass"])),
      (search pydoc_class_re line), (rmatch class_re _); done.
Qed.

(** X3: the module context changes only on a [module], [currentmodule] or
    [automodule] directive, and then becomes the directive's value as it
    stands; no other line, and none of the class rules, touches it. *)
Theorem track_context_module_rule (line : string) (self : RSTParser) :
  (∀ k v, parse_directive line = (Some k, Some v) →
          k ∈ ["module"; "currentmodule"; "automodule"] →
          module (track_context line self) = Some v)
  ∧ (∀ k v, parse_directive line = (Some k, Some v) →
            k ∉ ["module"; "currentmodule"; "automodule"] →
            module (track_context line self) = module self)
  ∧ (parse_directive line = (None, None) →
     module (track_context line self) = module self).
Proof.
  rewrite track_context_module. split_and!.
  - intros k v -> Hk. by rewrite bool_decide_eq_true_2.
  - intros k v -> Hk. by rewrite bool_decide_eq_false_2.
  - by intros ->.
Qed.

Lemma track_context_module_rule_witness :
  module (track_context ".. currentmodule:: os.path" init) = Some "os.path".
Proof.
  apply (proj1 (track_context_module_rule ".. currentmodule:: os.path" init)
           "currentmodule" "os.path"); [by vm_compute|in_list].
Defined.

(** X4: once set, the module and the class context are never cleared by
    [track_context]: a line can only replace them. *)
Theorem track_context_never_clears (line : string) (self : RSTParser) :
  (is_Some (module self) → is_Some (module (track_context line self)))
  ∧ (is_Some (cls self) → is_Some (cls (track_context line self))).
Proof.
  split.
  - intros Hm. rewrite track_context_module.
    destruct (parse_directive line) as [[k|] [v|]]; try done.
    by destruct (bool_decide _).
  - intros Hc. unfold track_context.
    destruct (parse_directive_cases line) as [->|(k & v & ->)]; simpl.
    + destruct (search pydoc_class_re line), (rmatch class_re _); done.
    + destruct (bool_decide (k ∈ ["module"; "currentmodule"; "automodule"])),
        (bool_decide (k ∈ ["class"; "autoclass"])),
        (search pydoc_class_re line), (rmatch class_re _); done.
Qed.

Lemma track_context_never_clears_witness :
  is_Some (cls (track_context ".. module:: os"
                  (mkRST [] ∅ (Some "pkg") (Some "Cls")))).
Proof.
  apply (proj2 (track_context_never_clears ".. module:: os"
                  (mkRST [] ∅ (Some "pkg") (Some "Cls")))).
  by eexists.
Defined.

Lemma all_chars_impl (p q : cclass) s :
  (∀ c, p c = true → q c = true) → all_chars p s = true → all_chars q s = true.
Proof.
  intros Hpq. induction s as [|c s IH]; [done|]. simpl.
  intros [Hc Hs]%andb_true_iff. by rewrite (Hpq c Hc), IH.
Qed.

Lemma word_plain c :
  word c = true →
  dot c = true ∧ not_ch "(" c = true ∧ sp c = false ∧ arg_char c = true.
Proof. destruct c as [[] [] [] [] [] [] [] []]; by vm_compute. Qed.

(** A pattern whose every match holds a character outside [q] matches
    nowhere in a text made of [q]-characters. *)
Lemma search_needs_char (q : cclass) r s :
  (∀ prev c g, matches r prev c g → all_chars q c = false) →
  all_chars q s = true → search r s = None.
Proof.
  intros Hr Hs. destruct (search r s) as [[[c g] rest]|] eqn:He; [|done].
  apply search_from_Some in He as (pre & -> & _ & Hm). cbn [fst snd] in *.
  rewrite !all_chars_app, (Hr _ _ _ Hm) in Hs.
  by rewrite andb_false_r in Hs.
Qed.

Lemma pydoc_class_needs_equals prev c g :
  matches pydoc_class_re prev c g → all_chars (not_ch "=") c = false.
Proof. unfold pydoc_class_re. intros H. inv_matches. by rewrite !app_cons. Qed.

Lemma overstrike_needs_backspace prev c g :
  matches overstrike_re prev c g → all_chars (not_ch BS) c = false.
Proof.
  unfold overstrike_re. intros H. inv_matches. rewrite app_cons, app_empty_l.
  simpl. unfold not_ch at 2. unfold ch in *.
  match goal with H : Ascii.eqb _ BS = true |- _ => rewrite H end.
  by rewrite andb_false_r.
Qed.

Lemma remove_overstrike_none s :
  all_chars (not_ch BS) s = true → remove overstrike_re s = s.
Proof.
  intros Hs. apply sub_from_no_match.
  by apply (search_needs_char (not_ch BS)), Hs; apply overstrike_needs_backspace.
Qed.

Lemma class_args_re_unmatched prev c s :
  not_ch "(" c = true → sp c = false → exec class_args_re prev (String c s) = [].
Proof.
  intros Hc Hs. apply exec_nil. intros m g (s' & Heq & Hm).
  unfold class_args_re in Hm. inv_matches.
  match goal with H : all_chars sp ?x = true |- _ =>
    destruct x as [|a x]; [|simpl in H; apply andb_true_iff in H as [Ha _]] end.
  - rewrite !app_cons in Heq. injection Heq as -> _. done.
  - rewrite !app_cons in Heq. injection Heq as -> _. congruence.
Qed.

Lemma remove_class_args_none prev name :
  all_chars word name = true →
  sub_from class_args_re (λ _, "") prev 0 name = name.
Proof.
  revert prev. induction name as [|c name IH]; intros prev Hn; [done|].
  simpl in Hn. apply andb_true_iff in Hn as [Hc Hn].
  destruct (word_plain c Hc) as (_ & ? & ? & _).
  rewrite sub_from_unmatched by (by apply class_args_re_unmatched).
  by rewrite IH.
Qed.

Lemma remove_class_args_from prev name args :
  all_chars word name = true →
  args ≠ "" → all_chars dot args = true →
  sub_from class_args_re (λ _, "") prev 0 (name +:+ "(" +:+ args) = name.
Proof.
  intros Hn Ha Hd. revert prev. induction name as [|c name IH]; intros prev.
  - rewrite app_empty_l, <- (app_empty_r args).
    erewrite sub_from_matched; [by rewrite sub_from_end| |].
    + unfold class_args_re.
      refine (head_exec_cat_first _ _ _ _ "" [] _ _ _ _ _ _).
      * by apply (head_exec_rep_greedy false sp prev "").
      * eapply head_exec_cat_first;
          [exact (head_exec_lit "(" _ (args +:+ ""))|].
        by apply head_exec_rep_greedy.
    + done.
  - simpl in Hn. apply andb_true_iff in Hn as [Hc Hn]. rewrite app_cons.
    destruct (word_plain c Hc) as (_ & ? & ? & _).
    rewrite sub_from_unmatched by (by apply class_args_re_unmatched).
    by rewrite IH.
Qed.

Lemma class_re_not_at_dot s : rmatch class_re (String "." s) = None.
Proof.
  unfold rmatch. rewrite exec_nil; [done|]. intros m g (s' & Heq & Hm).
  unfold class_re in Hm. inv_matches.
  match goal with H : all_chars sp ?x = true |- _ =>
    destruct x as [|a x]; [|simpl in H; apply andb_true_iff in H as [Ha _]] end.
  - rewrite !app_cons in Heq. discriminate.
  - rewrite !app_cons in Heq. injection Heq as <- _. done.
Qed.

(** X5: a [class] or [autoclass] directive whose value is a name of word
    characters, alone or followed by a parenthesised argument list, sets the
    class context to that name without the arguments, and leaves the module
    context as it is. *)
Theorem class_directive_sets_class (key name tail : string) (self : RSTParser) :
  key ∈ ["class"; "autoclass"] →
  name ≠ "" → all_chars word name = true →
  (tail = "" ∨ ∃ args, tail = "(" +:+ args ∧ args ≠ "" ∧ all_chars arg_char args = true) →
  let line := ".. " +:+ key +:+ ":: " +:+ name +:+ tail in
  cls (track_context line self) = Some name
  ∧ module (track_context line self) = module self.
Proof.
  intros Hkey Hne Hw Htail line.
  assert (all_chars arg_char tail = true ∧ all_chars dot tail = true
          ∧ sub_from class_args_re (λ _, "") None 0 (name +:+ tail) = name)
    as (Hta & Htd & Hstrip).
  { destruct Htail as [->|(args & -> & Ha & Hargs)].
    - rewrite app_empty_r. split_and!; [done..|]. by apply remove_class_args_none.
    - assert (all_chars dot args = true) as Hd.
      { revert Hargs. apply all_chars_impl. intros c. unfold arg_char.
        by intros [[? _]%andb_true_iff _]%andb_true_iff. }
      split_and!; [by rewrite app_cons|by rewrite app_cons|].
      by apply remove_class_args_from. }
  assert (all_chars arg_char name = true ∧ all_chars dot name = true) as [Hna Hnd].
  { split; revert Hw; apply all_chars_impl; intros c Hc;
      by destruct (word_plain c Hc) as (? & ? & ? & ?). }
  assert (all_chars arg_char line = true) as Hline.
  { unfold line. rewrite !all_chars_app, Hna, Hta.
    repeat (apply elem_of_cons in Hkey as [->|Hkey]; [by vm_compute|]).
    by apply elem_of_nil in Hkey. }
  assert (parse_directive line = (Some key, Some (name +:+ tail))) as Hp.
  { apply (parse_directive_of_text " " key " " (name +:+ tail)); try done.
    - intros ->. repeat (apply elem_of_cons in Hkey as [?|Hkey]; [discriminate|]).
      by apply elem_of_nil in Hkey.
    - repeat (apply elem_of_cons in Hkey as [->|Hkey]; [by vm_compute|]).
      by apply elem_of_nil in Hkey.
    - repeat (apply elem_of_cons in Hkey as [->|Hkey]; [by vm_compute|]).
      by apply elem_of_nil in Hkey.
    - by rewrite all_chars_app, Hnd, Htd.
    - destruct name as [|c name]; [done|]. rewrite app_cons. simpl in *.
      apply andb_true_iff in Hw as [Hc _].
      by destruct (word_plain c Hc) as (_ & _ & ? & _). }
  assert (search pydoc_class_re line = None) as H3.
  { apply (search_needs_char (not_ch "=")); [apply pydoc_class_needs_equals|].
    revert Hline. apply all_chars_impl. intros c. unfold arg_char.
    by intros [_ ?]%andb_true_iff. }
  assert (remove overstrike_re line = line) as H4.
  { apply remove_overstrike_none. revert Hline. apply all_chars_impl.
    intros c. unfold arg_char. by intros [[_ ?]%andb_true_iff _]%andb_true_iff. }
  assert (rmatch class_re line = None) as H5 by apply class_re_not_at_dot.
  assert (key_in (Some key) ["class"; "autoclass"] = true) as Hk2.
  { simpl. by rewrite bool_decide_eq_true_2. }
  assert (key_in (Some key) ["module"; "currentmodule"; "automodule"] = false) as Hk1.
  { repeat (apply elem_of_cons in Hkey as [->|Hkey]; [by vm_compute|]).
    by apply elem_of_nil in Hkey. }
  unfold track_context. rewrite Hp, Hk1, Hk2, H3, H4, H5. simpl.
  unfold remove, sub. by rewrite Hstrip.
Qed.

Lemma class_directive_sets_class_witness :
  let line := ".. " +:+ "class" +:+ ":: " +:+ "Bar" +:+ "(x)" in
  cls (track_context line init) = Some "Bar"
  ∧ module (track_context line init) = module init.
Proof.
  apply (class_directive_sets_class "class" "Bar" "(x)" init);
    [in_list|done|done|].
  right. by exists "x)".
Defined.

(** ** The expansion pass *)

Section Expansion.
Context {backend : Backend}.

Lemma expand_loop_sublist ls out self :
  ∃ res, (foldl (λ acc line, expand_line line acc) (out, self) ls).1 = out ++ res
         ∧ ls `sublist_of` res.
Proof.
  revert out self. induction ls as [|line ls IH]; intros out self.
  - exists []. by rewrite (right_id_L [] (++)).
  - cbn [foldl]. destruct (expand_line_shape line out self) as (extra & -> & _).
    destruct (IH (out ++ line :: extra) (track_context line self)) as (res & -> & Hs).
    exists (line :: extra ++ res). split.
    + by rewrite <- (assoc_L (++)).
    + apply sublist_skip. by apply sublist_inserts_l.
Qed.

(** X6: expansion only inserts lines: the lines of the document are still
    there afterwards, in their order, so the document never gets shorter. *)
Theorem expand_keeps_lines (self : RSTParser) :
  lines self `sublist_of` lines (expand_auto_directives self)
  ∧ length (lines self) ≤ length (lines (expand_auto_directives self)).
Proof.
  assert (lines self `sublist_of` lines (expand_auto_directives self)) as H.
  { unfold expand_auto_directives.
    destruct (expand_loop_sublist (lines (reset_context self)) [] (reset_context self))
      as (res & Hr & Hs).
    destruct (foldl _ _ _) as [out s]. simpl in *. by subst. }
  split; [done|]. by apply sublist_length.
Qed.

Lemma expand_loop_no_auto ls out self :
  (∀ l k v, l ∈ ls → parse_directive l = (Some k, Some v) →
            startswith k "auto" = false ∨ v = "") →
  (foldl (λ acc line, expand_line line acc) (out, self) ls).1 = out ++ ls.
Proof.
  revert out self. induction ls as [|line ls IH]; intros out self Hp.
  - by rewrite (right_id_L [] (++)).
  - cbn [foldl].
    assert (expand_line line (out, self) = (out ++ [line], track_context line self))
      as ->.
    { unfold expand_line.
      destruct (parse_directive_cases line) as [->|(k & v & Hkv)]; [done|].
      rewrite Hkv. destruct (Hp line k v) as [Ha| ->]; [by left|done| |].
      - simpl. by rewrite Ha, andb_false_r.
      - by rewrite andb_false_r. }
    rewrite IH by (intros l k v Hl; apply Hp; by right).
    by rewrite <- (assoc_L (++)).
Qed.

(** X7: a document in which no directive with a value has a name that
    begins with [auto] is left unchanged by the expansion, whatever other
    directives it holds. *)
Theorem expand_without_auto (self : RSTParser) :
  (∀ l k v, l ∈ lines self → parse_directive l = (Some k, Some v) →
            startswith k "auto" = false ∨ v = "") →
  lines (expand_auto_directives self) = lines self.
Proof.
  intros Hp. unfold expand_auto_directives.
  pose proof (expand_loop_no_auto (lines (reset_context self)) [] (reset_context self) Hp) as H.
  destruct (foldl _ _ _) as [out s]. simpl in *. done.
Qed.

(** X8: each pass writes its own field: the expansion leaves the symbol
    index as it is, and the indexing pass, returning or raising, leaves the
    lines as they are. *)
Theorem passes_keep_other_field (self : RSTParser) :
  indices (expand_auto_directives self) = indices self
  ∧ lines (state_of (parse_indices self)) = lines self
  ∧ lines (state_of (parse self)) = lines (expand_auto_directives self).
Proof.
  split_and!.
  - apply expand_auto_directives_indices.
  - apply parse_indices_lines.
  - apply parse_indices_lines.
Qed.

End Expansion.

Lemma expand_without_auto_witness :
  lines (@expand_auto_directives widget_backend
           (document [".. module:: pkg"; ".. class:: Widget"; "text"]))
  = [".. module:: pkg"; ".. class:: Widget"; "text"].
Proof.
  apply (@expand_without_auto widget_backend). intros l k v Hl Hp. left.
  repeat (apply elem_of_cons in Hl as [->|Hl];
          [vm_compute in Hp; first [discriminate|by injection Hp as <- <-]|]).
  by apply elem_of_nil in Hl.
Defined.

(** ** resolve_name and register_index *)

Section Registration.
Context {backend : Backend}.

Lemma compose_name_suffix m c name :
  ∃ q, compose_name [m; c; Some name] = q +:+ name.
Proof.
  destruct m as [m|], c as [c|]; cbn.
  - exists (m +:+ "." +:+ c +:+ "."). by rewrite !app_assoc_s.
  - exists (m +:+ "."). by rewrite !app_assoc_s.
  - exists (c +:+ "."). by rewrite !app_assoc_s.
  - by exists "".
Qed.

Lemma resolve_name_valid name m0 c0 self n :
  resolve_name name m0 c0 self = Some n → is_valid_name n = true.
Proof.
  rewrite resolve_name_candidates. by intros [_ ?]%find_some.
Qed.

(** X9: a name that [resolve_name] returns is one the backend locates, is one
    of the four candidates, and ends with the name asked for: resolution
    only puts a qualifier in front. *)
Theorem resolve_name_sound (name : string) (m0 c0 : option string)
    (self : RSTParser) (n : string) :
  resolve_name name m0 c0 self = Some n →
  is_valid_name n = true
  ∧ n ∈ candidates name (match m0 with None => module self | _ => m0 end)
                        (match c0 with None => cls self | _ => c0 end)
  ∧ ∃ q, n = q +:+ name.
Proof.
  intros Hr. split; [by eapply resolve_name_valid|].
  rewrite resolve_name_candidates in Hr.
  apply find_some in Hr as [Hin _]. apply list_elem_of_In in Hin.
  split; [done|]. unfold candidates in Hin.
  repeat (apply elem_of_cons in Hin as [->|Hin]; [apply compose_name_suffix|]).
  by apply elem_of_nil in Hin.
Qed.


End Registration.

Lemma resolve_name_sound_witness :
  @is_valid_name widget_backend "pkg.Widget" = true
  ∧ "pkg.Widget" ∈ candidates "Widget" (Some "pkg") None
  ∧ ∃ q, "pkg.Widget" = q +:+ "Widget".
Proof.
  apply (@resolve_name_sound widget_backend "Widget" None None
           (mkRST [] ∅ (Some "pkg") None) "pkg.Widget").
  by vm_compute.
Defined.


(** ** What the index holds *)

Section IndexEntries.
Context {backend : Backend}.

Lemma register_index_lookup name lineno m c self k v :
  indices (register_index name lineno m c self) !! k = Some v →
  indices self !! k = Some v
  ∨ (v = lineno ∧ k ≠ "" ∧ is_valid_name k = true).
Proof.
  unfold register_index.
  destruct (resolve_name (remove args_re name) m c self) as [[|a n]|] eqn:Hr;
    simpl; [by left| |by left].
  intros [[<- <-]|[_ ?]]%lookup_insert_Some; [right|by left].
  split_and!; [done..|]. by eapply resolve_name_valid.
Qed.

Lemma index_line_lookup lineno line self k v :
  indices (state_of (index_line lineno line self)) !! k = Some v →
  indices self !! k = Some v
  ∨ (v = lineno ∧ k ≠ "" ∧ is_valid_name k = true ∧ indexable_line line).
Proof.
  unfold index_line, index_method.
  assert (indices (index_directive lineno line self) !! k = Some v →
          indices self !! k = Some v
          ∨ (v = lineno ∧ k ≠ "" ∧ is_valid_name k = true ∧ indexable_line line))
    as Hd.
  { unfold index_directive.
    destruct (parse_directive_cases line) as [->|(key & val & Hp)]; [by left|].
    rewrite Hp. simpl. destruct (bool_decide (key ∈ DIRECTIVES_TO_INCLUDE)) eqn:Hk;
      [|by left].
    destruct val as [|a val]; [by left|]. simpl.
    intros [?|(? & ? & ?)]%register_index_lookup; [by left|right].
    split_and!; [done..|]. left. exists key, (String a val).
    split_and!; [done| |done]. by apply bool_decide_eq_true in Hk. }
  destruct (search method_re line) as [m|] eqn:Hm.
  - destruct (cls (index_directive lineno line self)) as [c|]; simpl.
    + rewrite track_context_indices.
      intros [?|(? & ? & ?)]%register_index_lookup; [by apply Hd|right].
      split_and!; [done..|]. right. by rewrite Hm.
    + apply Hd.
  - simpl. rewrite track_context_indices. apply Hd.
Qed.

Lemma index_lines_lookup n ls self k v :
  indices (state_of (index_lines n ls self)) !! k = Some v →
  indices self !! k = Some v
  ∨ (k ≠ "" ∧ is_valid_name k = true
     ∧ ∃ line, n ≤ v ∧ ls !! (v - n) = Some line ∧ indexable_line line).
Proof.
  revert n self. induction ls as [|line ls IH]; intros n self; [by left|].
  simpl. destruct (index_line n line self) as [s|s] eqn:Hl.
  - intros [H|(? & ? & l & ? & Hlk & ?)]%IH.
    + assert (indices (state_of (index_line n line self)) !! k = Some v) as H'
        by by rewrite Hl.
      apply index_line_lookup in H' as [?|(-> & ? & ? & ?)]; [by left|right].
      split_and!; [done..|]. exists line. by rewrite Nat.sub_diag.
    + right. split_and!; [done..|]. exists l. split; [lia|].
      replace (v - n) with (S (v - S n)) by lia. done.
  - intros H.
    assert (indices (state_of (index_line n line self)) !! k = Some v) as H'
      by by rewrite Hl.
    apply index_line_lookup in H' as [?|(-> & ? & ? & ?)]; [by left|right].
    split_and!; [done..|]. exists line. by rewrite Nat.sub_diag.
Qed.

(** X11: after the indexing pass over an object whose index was empty,
    every entry of the index has a non-empty name that the backend locates,
    and its line number is the position of a line that is a directive of the
    list with a value or a rendered method signature. *)
Theorem index_entries_sound (self : RSTParser) (k : string) (v : nat) :
  indices self = ∅ →
  indices (state_of (parse_indices self)) !! k = Some v →
  k ≠ "" ∧ is_valid_name k = true
  ∧ ∃ line, lines self !! v = Some line ∧ indexable_line line.
Proof.
  intros He [H|(? & ? & line & _ & Hl & ?)]%index_lines_lookup.
  - simpl in H. by rewrite He in H.
  - split_and!; [done..|]. exists line. by rewrite Nat.sub_0_r in Hl.
Qed.

(** ** When the indexing pass raises *)

Lemma index_line_TypeError_inv lineno line self s :
  index_line lineno line self = TypeError s →
  is_Some (search method_re line) ∧ cls self = None.
Proof.
  unfold index_line, index_method.
  destruct (search method_re line) as [m|]; [|done].
  rewrite index_directive_cls. destruct (cls self); [done|]. eauto.
Qed.

Lemma index_lines_TypeError_inv n ls self s :
  index_lines n ls self = TypeError s →
  ∃ pre line post,
    ls = pre ++ line :: post ∧ is_Some (search method_re line)
    ∧ cls (foldl (λ s l, track_context l s) self pre) = None.
Proof.
  revert n self. induction ls as [|l ls IH]; intros n self; [done|].
  simpl. destruct (index_line n l self) as [s1|s1] eqn:Hl.
  - apply index_line_returned in Hl as [i ->].
    intros (pre & line & post & -> & Hm & Hc)%IH.
    exists (l :: pre), line, post. split_and!; [done..|].
    simpl. by rewrite track_lines_set_indices in Hc.
  - intros _. apply index_line_TypeError_inv in Hl as [Hm Hc].
    by exists [], l, ls.
Qed.

(** X12: the indexing pass raises exactly when some line has the shape of a
    rendered method signature while the class context, after the lines
    before it, is still absent; on every other document it returns. *)
Theorem parse_indices_raises_iff (self : RSTParser) :
  (∃ s, parse_indices self = TypeError s) ↔
  ∃ pre line post,
    lines self = pre ++ line :: post ∧ is_Some (search method_re line)
    ∧ cls (foldl (λ s l, track_context l s) (reset_context self) pre) = None.
Proof.
  unfold parse_indices. split.
  - intros [s Hs]. by apply index_lines_TypeError_inv in Hs.
  - intros (pre & line & post & Hl & Hm & Hc).
    replace (lines (reset_context self)) with (pre ++ line :: post) by done.
    by apply index_lines_raises.
Qed.

End IndexEntries.

Lemma index_entries_sound_witness :
  "str.lower" ≠ "" ∧ @is_valid_name str_backend "str.lower" = true
  ∧ ∃ line, lines (document pasted_pydoc) !! 1 = Some line ∧ indexable_line line.
Proof.
  apply (@index_entries_sound str_backend (document pasted_pydoc)); by vm_compute.
Defined.

Lemma parse_indices_raises_iff_witness :
  ∃ pre line post,
    lines (document [".. module:: os"; " |  " +:+ bold "walk" +:+ "(top)"])
      = pre ++ line :: post
    ∧ is_Some (search method_re line)
    ∧ cls (foldl (λ s l, track_context l s)
             (reset_context
                (document [".. module:: os"; " |  " +:+ bold "walk" +:+ "(top)"]))
             pre) = None.
Proof.
  apply (proj1 (@parse_indices_raises_iff str_backend
                  (document [".. module:: os"; " |  " +:+ bold "walk" +:+ "(top)"]))).
  eexists. vm_compute. reflexivity.
Defined.

(** ** read *)

Lemma autosummary_needs_keyword prev c g :
  matches autosummary_re prev c g → occurs_in " autosummary::" c.
Proof.
  unfold autosummary_re. intros H. inv_matches.
  match goal with
  | |- occurs_in _ (String ?a "" +:+ String ?b "" +:+ String ?d "" +:+ _ +:+ ?r) =>
      exists (String a (String b (String d ""))), r
  end.
  by rewrite !app_cons, !app_empty_l.
Qed.

(** X13: a text in which [ autosummary::] does not occur is read as it is:
    no substitution takes place and the lines are those of the text. *)
Theorem read_without_autosummary (buf : string) (self : RSTParser) :
  ¬ occurs_in " autosummary::" buf →
  normalize buf = buf ∧ lines (read buf self) = splitlines buf.
Proof.
  intros Hn. assert (normalize buf = buf) as Hb.
  { apply normalize_no_block.
    destruct (search autosummary_re buf) as [[[c g] rest]|] eqn:Hs; [|done].
    apply search_from_Some in Hs as (pre & -> & _ & Hm). cbn [fst snd] in *.
    apply autosummary_needs_keyword in Hm as (a & b & ->).
    destruct Hn. exists (pre +:+ a), (b +:+ rest). by rewrite !app_assoc_s. }
  split; [done|]. unfold read. simpl. by rewrite Hb.
Qed.

Lemma read_without_autosummary_witness :
  let buf := ".. module:: pkg" +:+ nl +:+ ".. class:: Widget" +:+ nl in
  normalize buf = buf ∧ lines (read buf init) = splitlines buf.
Proof.
  apply read_without_autosummary. intros (a & b & H). vm_compute in H.
  repeat (destruct a as [|? a];
          [discriminate|injection H as <- H]).
  destruct a; discriminate.
Defined.

(** ** Lines hold no line boundary *)




Section LineBoundaries.
Context {backend : Backend}.




End LineBoundaries.


(** ** The last line that records a name *)

Section LastWriter.
Context {backend : Backend}.

Lemma index_line_indices n line self :
  indices (state_of (index_line n line self))
  = indices (state_of (index_line n line (set_indices ∅ self))) ∪ indices self.
Proof.
  destruct (index_line_frame n line self) as (Δ & o & _ & _ & H).
  rewrite (H ∅). specialize (H (indices self)). rewrite set_indices_id in H.
  rewrite H. destruct o; simpl; by rewrite (right_id_L ∅ (∪)).
Qed.

Lemma index_line_records n line self k v :
  indices (state_of (index_line n line self)) !! k = Some v ↔
  (records n line self k ∧ v = n)
  ∨ (¬ records n line self k ∧ indices self !! k = Some v).
Proof.
  rewrite index_line_indices, lookup_union_Some_raw. unfold records.
  destruct (index_line_frame n line self) as (Δ & o & HΔ & _ & H).
  assert (indices (state_of (index_line n line (set_indices ∅ self))) = Δ) as ->.
  { rewrite (H ∅). destruct o; simpl; by rewrite (right_id_L ∅ (∪)). }
  split.
  - intros [Hk|[Hk ?]]; [left|right].
    + split; [by eexists|by eapply HΔ].
    + split; [|done]. rewrite Hk. by intros [? ?].
  - intros [[[w Hk] ->]|[Hk ?]]; [left|right].
    + by rewrite Hk, (HΔ k w Hk).
    + split; [|done]. by apply eq_None_not_Some.
Qed.

Lemma records_set_indices n line i self k :
  records n line (set_indices i self) k ↔ records n line self k.
Proof. done. Qed.

Lemma index_lines_last n ls self s k v :
  index_lines n ls self = Returned s →
  indices s !! k = Some v ↔
  (∃ j line,
     ls !! j = Some line ∧ v = n + j
     ∧ records (n + j) line (context_after (take j ls) self) k
     ∧ ∀ j' line', j < j' → ls !! j' = Some line' →
         ¬ records (n + j') line' (context_after (take j' ls) self) k)
  ∨ (indices self !! k = Some v
     ∧ ∀ j line, ls !! j = Some line →
         ¬ records (n + j) line (context_after (take j ls) self) k).
Proof.
  revert n self. induction ls as [|l ls IH]; intros n self.
  - intros [= <-]. split; [intros H; right; by split|].
    by intros [(j & line & ? & _)|[? _]].
  - simpl. destruct (index_line n l self) as [s1|s1] eqn:Hl; [|done].
    intros Hs. rewrite (IH (S n) s1 Hs). clear IH Hs.
    assert (indices s1 !! k = Some v ↔
            (records n l self k ∧ v = n)
            ∨ (¬ records n l self k ∧ indices self !! k = Some v)) as H0.
    { rewrite <- index_line_records. by rewrite Hl. }
    apply index_line_returned in Hl as [i ->].
    assert (∀ j line,
              records (S n + j) line (context_after (take j ls)
                                        (set_indices i (track_context l self))) k
              ↔ records (n + S j) line (context_after (take (S j) (l :: ls)) self) k)
      as Hshift.
    { intros j line. unfold context_after. rewrite track_lines_set_indices.
      rewrite records_set_indices. by replace (n + S j) with (S n + j) by lia. }
    assert (records n l self k
            ↔ records (n + 0) l (context_after (take 0 (l :: ls)) self) k) as Hzero.
    { by rewrite Nat.add_0_r. }
    split.
    + intros [(j & line & Hj & -> & Hr & Hlater)|[Hi Hno]].
      * left. exists (S j), line. split_and!; [done|lia|by apply Hshift|].
        intros [|j'] line' Hlt Hj'; [lia|].
        rewrite <- Hshift. apply Hlater; [lia|done].
      * apply H0 in Hi as [[Hr ->]|[Hr Hi]].
        -- left. exists 0, l. split_and!; [done|lia|by apply Hzero|].
           intros [|j'] line' Hlt Hj'; [lia|].
           rewrite <- Hshift. by apply Hno.
        -- right. split; [done|]. intros [|j] line Hj.
           ++ injection Hj as <-. by rewrite <- Hzero.
           ++ rewrite <- Hshift. by apply Hno.
    + intros [(j & line & Hj & -> & Hr & Hlater)|[Hi Hno]].
      * destruct j as [|j].
        -- injection Hj as <-. right. split.
           ++ apply H0. left. split; [by apply Hzero|lia].
           ++ intros j line Hj. rewrite Hshift. apply Hlater; [lia|done].
        -- left. exists j, line. split_and!; [done|lia|by apply Hshift|].
           intros j' line' Hlt Hj'. rewrite Hshift. apply Hlater; [lia|done].
      * right. split.
        -- apply H0. right. split; [|done]. rewrite Hzero. by apply Hno.
        -- intros j line Hj. rewrite Hshift. by apply Hno.
Qed.

(** X15: last writer wins.  When the indexing pass over an object with an
    empty index returns, a name is in the index at line number [v] exactly
    when line [v], in the context the lines before it establish, records that
    name and no later line does. *)
Theorem index_holds_last_record (self s : RSTParser) (k : string) (v : nat) :
  indices self = ∅ →
  parse_indices self = Returned s →
  indices s !! k = Some v ↔
  ∃ line,
    lines self !! v = Some line
    ∧ records v line (context_after (take v (lines self)) (reset_context self)) k
    ∧ ∀ w line', v < w → lines self !! w = Some line' →
        ¬ records w line' (context_after (take w (lines self)) (reset_context self)) k.
Proof.
  intros He Hs. unfold parse_indices in Hs.
  rewrite (index_lines_last 0 _ _ _ k v Hs). simpl. rewrite He. split.
  - intros [(j & line & Hj & -> & ?)|[? _]]; [|done]. by exists line.
  - intros (line & ? & ?). left. by exists v, line.
Qed.

End LastWriter.

(** Two directives for the same function: the later line is the one the
    index keeps. *)
Lemma index_holds_last_record_witness :
  ∃ line,
    lines (document [".. function:: len"; "text"; ".. data:: len"]) !! 2 = Some line
    ∧ @records (table_backend ["len"] [] []) 2 line
        (context_after (take 2 (lines (document [".. function:: len"; "text"; ".. data:: len"])))
           (reset_context (document [".. function:: len"; "text"; ".. data:: len"])))
        "len"
    ∧ ∀ w line', 2 < w →
        lines (document [".. function:: len"; "text"; ".. data:: len"]) !! w
          = Some line' →
        ¬ @records (table_backend ["len"] [] []) w line'
            (context_after (take w (lines (document [".. function:: len"; "text"; ".. data:: len"])))
               (reset_context (document [".. function:: len"; "text"; ".. data:: len"])))
            "len".
Proof.
  assert (∃ s, @parse_indices (table_backend ["len"] [] [])
                 (document [".. function:: len"; "text"; ".. data:: len"])
               = Returned s ∧ indices s !! "len" = Some 2) as (s & Hs & Hi).
  { eexists. split; vm_compute; reflexivity. }
  exact (proj1 (@index_holds_last_record (table_backend ["len"] [] [])
                  (document [".. function:: len"; "text"; ".. data:: len"]) s
                  "len" 2 eq_refl Hs) Hi).
Defined.

(** ** The expansion of a concatenation *)

Section ExpansionParts.
Context {backend : Backend}.

Lemma expand_loop_from ls out self :
  foldl (λ acc line, expand_line line acc) (out, self) ls
  = (out ++ expansion ls self, context_after ls self).
Proof.
  unfold expansion. revert out self.
  induction ls as [|line ls IH]; intros out self.
  - simpl. by rewrite (right_id_L [] (++)).
  - cbn [foldl context_after].
    destruct (expand_line_shape line out self) as (extra & Ho & _).
    destruct (expand_line_shape line [] self) as (extra' & Hn & _).
    assert (extra' = extra) as ->.
    { revert Ho Hn. unfold expand_line.
      destruct (parse_directive line) as [key val].
      destruct (_ && _); intros [= Ho] [= Hn]; subst.
      - rewrite <- (assoc_L (++)) in Ho. by apply app_inv_head in Ho as [= ->].
      - by apply app_inv_head in Ho as [= ->]. }
    rewrite Ho, Hn, (IH (out ++ line :: extra)), (IH ([] ++ line :: extra)).
    by rewrite <- !(assoc_L (++)).
Qed.

Lemma expand_auto_directives_expansion self :
  lines (expand_auto_directives self)
  = expansion (lines self) (reset_context self).
Proof.
  unfold expand_auto_directives.
  change (lines (reset_context self)) with (lines self).
  by rewrite expand_loop_from.
Qed.

(** X16: the expansion works line by line and looks at the lines of the
    document only: the expansion of two parts in sequence is the expansion of
    the first followed by that of the second in the context that the lines of
    the first part establish; the spliced lines play no part in that
    context.  One line expands to itself, followed by the documentation of
    its value when it is a directive whose name begins with [auto]. *)
Theorem expansion_app (l1 l2 : list string) (line : string) (self : RSTParser) :
  expansion (l1 ++ l2) self
    = expansion l1 self ++ expansion l2 (context_after l1 self)
  ∧ lines (expand_auto_directives self)
    = expansion (lines self) (reset_context self)
  ∧ expansion [line] self
    = line ::
      match parse_directive line with
      | (Some k, Some v) =>
          if startswith k "auto" && negb (String.eqb v "")
          then pydoc_lines_for v (track_context line self) else []
      | _ => []
      end.
Proof.
  split_and!.
  - unfold expansion at 1. by rewrite foldl_app, !expand_loop_from.
  - apply expand_auto_directives_expansion.
  - unfold expansion, expand_line. simpl.
    destruct (parse_directive_cases line) as [->|(k & v & ->)]; [done|].
    destruct k as [|a k], v as [|b v]; simpl; try done.
    + by rewrite !andb_false_r.
    + rewrite andb_true_r. by destruct (_ && _).
Qed.

End ExpansionParts.

(** ** Lazy repetition *)

Lemma exec_bol_free r p1 p2 s : bol_free r = true → exec r p1 s = exec r p2 s.
Proof.
  revert p1 p2 s. induction r as [|p|r1 IH1 r2 IH2|r IH|greedy pl p|];
    intros p1 p2 s Hb; simpl in *; try done.
  - apply andb_true_iff in Hb as [Hb1 Hb2].
    apply list_bind_ext; [|by apply IH1]. intros [[c1 g1] s1].
    by rewrite (IH2 (last_char p1 c1) (last_char p2 c1)).
  - by rewrite (IH p1 p2).
Qed.

Lemma sub_from_bol_free r repl p1 p2 k s :
  bol_free r = true → sub_from r repl p1 k s = sub_from r repl p2 k s.
Proof.
  intros Hb. destruct s as [|c s]; simpl.
  - by rewrite (exec_bol_free r p1 p2).
  - destruct k; [|done]. by rewrite (exec_bol_free r p1 p2).
Qed.

Lemma head_bind_skip {A B} (f : A → list B) l1 x l2 y :
  (∀ z, z ∈ l1 → f z = []) → head (f x) = Some y →
  head ((l1 ++ x :: l2) ≫= f) = Some y.
Proof.
  intros Hl Hx. induction l1 as [|z l1 IH]; simpl.
  - destruct (f x); [done|]. done.
  - rewrite (Hl z) by by left. simpl. apply IH. intros z' Hz. apply Hl. by right.
Qed.

(** The splits of [a +:+ b] before the one at the end of [a] cut [a] in
    two. *)
Lemma runs_any_split a b :
  ∃ l1 l2,
    runs any (a +:+ b) = l1 ++ (a, b) :: l2
    ∧ ∀ x y, (x, y) ∈ l1 → ∃ a2, a = x +:+ a2 ∧ a2 ≠ "" ∧ y = a2 +:+ b.
Proof.
  induction a as [|c a (l1 & l2 & Hr & Hl)].
  - destruct (runs_cons any b) as [l Hl]. exists [], l. split; [done|].
    by intros x y ?%elem_of_nil.
  - rewrite app_cons. simpl. rewrite Hr.
    exists (("", String c (a +:+ b)) :: ((λ '(x, y), (String c x, y)) <$> l1)),
      ((λ '(x, y), (String c x, y)) <$> l2).
    split; [by rewrite fmap_app|].
    intros x y [[= -> ->]|Hin]%elem_of_cons.
    + by exists (String c a).
    + apply list_elem_of_fmap in Hin as [[x' y'] [[= -> ->] Hin]].
      destruct (Hl x' y' Hin) as (a2 & -> & ? & ->). by exists a2.
Qed.

Lemma tail_runs_any_split a b :
  a ≠ "" →
  ∃ l1 l2,
    tail (runs any (a +:+ b)) = l1 ++ (a, b) :: l2
    ∧ ∀ x y, (x, y) ∈ l1 → x ≠ "" ∧ ∃ a2, a = x +:+ a2 ∧ a2 ≠ "" ∧ y = a2 +:+ b.
Proof.
  intros Ha. destruct a as [|c a]; [done|]. rewrite app_cons. simpl.
  destruct (runs_any_split a b) as (l1 & l2 & -> & Hl).
  exists ((λ '(x, y), (String c x, y)) <$> l1), ((λ '(x, y), (String c x, y)) <$> l2).
  split; [by rewrite fmap_app|].
  intros x y Hin. apply list_elem_of_fmap in Hin as [[x' y'] [[= -> ->] Hin]].
  split; [done|]. destruct (Hl x' y' Hin) as (a2 & -> & ? & ->). by exists a2.
Qed.

Lemma exec_grp_lazy prev s :
  exec (Grp (plus_lazy any)) prev s
  = (λ '(a, b), (a, [a], b)) <$> tail (runs any s).
Proof.
  cbn [exec plus_lazy]. induction (tail (runs any s)) as [|[a b] l IH]; [done|].
  cbn. by rewrite <- IH.
Qed.

(** A lazy group followed by [r2] first takes the shortest text after which
    [r2] matches. *)
Lemma head_exec_lazy_cat r2 prev a b c2 g2 s2 :
  a ≠ "" →
  (∀ a1 a2, a = a1 +:+ a2 → a1 ≠ "" → a2 ≠ "" →
            exec r2 (last_char prev a1) (a2 +:+ b) = []) →
  head (exec r2 (last_char prev a) b) = Some (c2, g2, s2) →
  head (exec (Grp (plus_lazy any) · r2) prev (a +:+ b))
  = Some (a +:+ c2, a :: g2, s2).
Proof.
  intros Ha Hshort Hr2.
  change (exec (Grp (plus_lazy any) · r2) prev (a +:+ b))
    with (exec (Grp (plus_lazy any)) prev (a +:+ b) ≫=
            (λ '(c1, g1, s1), exec r2 (last_char prev c1) s1 ≫=
               (λ '(c2, g2, s2), [(c1 +:+ c2, g1 ++ g2, s2)]))).
  rewrite exec_grp_lazy.
  destruct (tail_runs_any_split a b Ha) as (l1 & l2 & -> & Hl).
  rewrite fmap_app, fmap_cons. apply head_bind_skip.
  - intros z Hz. apply list_elem_of_fmap in Hz as [[x y] [-> Hin]].
    destruct (Hl x y Hin) as (Hx & a2 & -> & Ha2 & ->).
    by rewrite (Hshort x a2).
  - destruct (exec r2 (last_char prev a) b) as [|r l]; [done|].
    by injection Hr2 as ->.
Qed.

Lemma head_exec_chr p prev c s :
  p c = true → head (exec (Chr p) prev (String c s)) = Some (String c "", [], s).
Proof. intros Hp. simpl. by rewrite Hp. Qed.

Lemma head_exec_star_lazy p prev s :
  head (exec (star_lazy p) prev s) = Some ("", [], s).
Proof. cbn [exec star_lazy]. by destruct (runs_cons p s) as [l ->]. Qed.

(** ** Blank lines *)

Lemma last_char_all (p : cclass) q s :
  all_chars p s = true → s ≠ "" → ∃ c, last_char q s = Some c ∧ p c = true.
Proof.
  revert q. induction s as [|c s IH]; intros q Hs Hne; [done|].
  simpl in *. apply andb_true_iff in Hs as [Hc Hs].
  destruct s as [|d s]; [by exists c|]. by apply IH.
Qed.

Lemma last_char_nonempty q1 q2 s : s ≠ "" → last_char q1 s = last_char q2 s.
Proof. by destruct s. Qed.

Lemma no_blank_line_suffix a1 a2 :
  no_blank_line (a1 +:+ a2) = true → no_blank_line a2 = true.
Proof.
  induction a1 as [|c a1 IH]; [done|]. rewrite app_cons.
  destruct a1 as [|d a1].
  - rewrite app_empty_l. destruct a2 as [|e a2]; [done|].
    simpl. by intros [_ ?]%andb_true_iff.
  - rewrite app_cons in *. cbn [no_blank_line].
    intros [_ ?]%andb_true_iff. by apply IH.
Qed.

(** Inside a text without blank line that does not end in a newline, two
    newlines never begin at a position, even when newlines follow the
    text. *)
Lemma no_blank_line_unmatched prev body a1 a2 rest :
  no_blank_line body = true → last_char None body ≠ Some LF →
  body = a1 +:+ a2 → a2 ≠ "" →
  exec (Chr (ch LF) · Chr (ch LF)) prev (a2 +:+ String LF rest) = [].
Proof.
  intros Hb Hl -> Ha2. apply no_blank_line_suffix in Hb.
  rewrite last_char_app, (last_char_nonempty _ None) in Hl by done.
  destruct a2 as [|c a2]; [done|]. rewrite app_cons. cbn [exec]. unfold ch.
  destruct (Ascii.eqb c LF) eqn:Hc; [|done]. apply Ascii.eqb_eq in Hc as ->.
  destruct a2 as [|d a2]; [done|]. rewrite app_cons.
  cbn [mbind list_bind].
  simpl in Hb. apply andb_true_iff in Hb as [Hd _].
  apply negb_true_iff in Hd. by rewrite Hd.
Qed.

Lemma no_blank_line_dot x : all_chars dot x = true → no_blank_line x = true.
Proof.
  induction x as [|c x IH]; [done|]. simpl.
  intros [Hc Hx]%andb_true_iff. destruct x as [|d x]; [done|].
  rewrite (IH Hx), andb_true_r. unfold dot in Hc.
  apply negb_true_iff in Hc. by rewrite Hc.
Qed.

Lemma no_blank_line_join x y :
  all_chars dot x = true → x ≠ "" →
  no_blank_line y = true → starts_in (ch LF) y = false →
  no_blank_line (x +:+ nl +:+ y) = true.
Proof.
  intros Hx Hne Hy Hs. induction x as [|c x IH]; [done|].
  simpl in Hx. apply andb_true_iff in Hx as [Hc Hx]. rewrite app_cons.
  unfold dot in Hc. apply negb_true_iff in Hc.
  destruct x as [|d x].
  - rewrite app_empty_l. unfold nl. rewrite app_cons, app_empty_l.
    cbn [no_blank_line]. rewrite Hc. simpl.
    destruct y as [|e y]; [done|]. simpl in Hs. unfold ch in Hs.
    by rewrite Hs, Hy.
  - rewrite app_cons in *. cbn [no_blank_line]. rewrite Hc. simpl.
    by apply IH.
Qed.

Lemma join_cons2 sep x y l : join sep (x :: y :: l) = x +:+ sep +:+ join sep (y :: l).
Proof. done. Qed.

Lemma summary_body_shape indent entries :
  indent ≠ "" → all_chars sp indent = true → entries ≠ [] →
  Forall (λ e, all_chars dot e = true) entries →
  summary_body indent entries ≠ ""
  ∧ starts_in (ch LF) (summary_body indent entries) = false
  ∧ no_blank_line (summary_body indent entries) = true
  ∧ last_char None (summary_body indent entries) ≠ Some LF.
Proof.
  intros Hi Hsp Hne Hall. unfold summary_body.
  assert (∀ e, all_chars dot e = true →
               all_chars dot (indent +:+ e) = true ∧ indent +:+ e ≠ ""
               ∧ starts_in (ch LF) (indent +:+ e) = false) as Hline.
  { intros e He. split_and!.
    - rewrite all_chars_app, He, andb_true_r. revert Hsp. apply all_chars_impl.
      intros c. unfold sp, ch, dot. intros ->%Ascii.eqb_eq. done.
    - by destruct indent.
    - destruct indent as [|c indent]; [done|]. simpl in *.
      apply andb_true_iff in Hsp as [Hc _]. unfold sp, ch in *.
      apply Ascii.eqb_eq in Hc as ->. done. }
  induction entries as [|e entries IH]; [done|]. clear Hne.
  apply Forall_cons in Hall as [He Hall].
  destruct (Hline e He) as (Hd & Hn & Hs).
  destruct entries as [|e2 entries].
  - simpl. split_and!; [done|done|by apply no_blank_line_dot|].
    destruct (last_char_all dot None _ Hd Hn) as (c & -> & Hc).
    intros [= ->]. done.
  - destruct (IH ltac:(done) Hall) as (Hn2 & Hs2 & Hb2 & Hl2).
    rewrite fmap_cons, fmap_cons, join_cons2. rewrite <- fmap_cons.
    split_and!.
    + by destruct indent.
    + by rewrite starts_in_app.
    + by apply no_blank_line_join.
    + rewrite !last_char_app. by rewrite (last_char_nonempty _ None).
Qed.

(** ** The indentation of the entries *)

Lemma indent_re_not_bol prev s : at_bol prev = false → exec indent_re prev s = [].
Proof. intros Hb. unfold indent_re. cbn [exec]. by rewrite Hb. Qed.

Lemma indent_re_end prev : exec indent_re prev "" = [].
Proof. unfold indent_re. cbn [exec]. by destruct (at_bol prev). Qed.

Lemma indent_copy repl e prev rest :
  at_bol prev = false → all_chars dot e = true →
  sub_from indent_re repl prev 0 (e +:+ rest)
    = e +:+ sub_from indent_re repl (last_char prev e) 0 rest
  ∧ at_bol (last_char prev e) = false.
Proof.
  revert prev. induction e as [|c e IH]; intros prev Hb He; [done|].
  simpl in He. apply andb_true_iff in He as [Hc He].
  rewrite !app_cons, sub_from_unmatched by by apply indent_re_not_bol.
  destruct (IH (Some c)) as [-> ?]; [|done..].
  unfold dot in Hc. by apply negb_true_iff in Hc.
Qed.

Lemma indent_match repl prev indent t :
  at_bol prev = true → indent ≠ "" → all_chars sp indent = true →
  starts_in sp t = false →
  sub_from indent_re repl prev 0 (indent +:+ t)
    = repl [] +:+ sub_from indent_re repl (last_char prev indent) 0 t
  ∧ at_bol (last_char prev indent) = false.
Proof.
  intros Hb Hi Hsp Ht. split.
  - apply (sub_from_matched indent_re repl prev (indent +:+ t) indent [] t); [|done].
    unfold indent_re.
    refine (head_exec_cat_first _ _ _ _ "" [] _ indent [] _ _ _).
    + cbn [exec]. by rewrite Hb.
    + by apply head_exec_rep_greedy.
  - destruct (last_char_all sp prev indent Hsp Hi) as (c & -> & Hc).
    unfold sp, ch in Hc. by apply Ascii.eqb_eq in Hc as ->.
Qed.

Lemma sub_indent_body indent entries prev :
  at_bol prev = true →
  indent ≠ "" → all_chars sp indent = true → entries ≠ [] →
  Forall (λ e, all_chars dot e = true ∧ starts_in sp e = false) entries →
  sub_from indent_re (λ _, ".. autosummary_:: ") prev 0 (summary_body indent entries)
  = summary_directives entries.
Proof.
  intros Hb Hi Hsp Hne Hall. revert prev Hb.
  induction entries as [|e entries IH]; intros prev Hb; [done|]. clear Hne.
  apply Forall_cons in Hall as [[He Hs] Hall].
  unfold summary_body, summary_directives in *.
  destruct entries as [|e2 entries].
  - simpl. rewrite <- (app_empty_r e) at 1.
    destruct (indent_match (λ _, ".. autosummary_:: ") prev indent (e +:+ ""))
      as [-> Hb']; [done..|by rewrite app_empty_r|].
    destruct (indent_copy (λ _, ".. autosummary_:: ") e (last_char prev indent) "")
      as [-> _]; [done..|].
    by rewrite sub_from_end, app_empty_r by apply indent_re_end.
  - rewrite !fmap_cons, !join_cons2, <- !fmap_cons. rewrite !app_assoc_s.
    destruct (indent_match (λ _, ".. autosummary_:: ") prev indent
                (e +:+ nl +:+ join nl ((λ e0, indent +:+ e0) <$> e2 :: entries)))
      as [-> Hb']; [done..| |].
    { destruct e; [done|]. by rewrite app_cons. }
    destruct (indent_copy (λ _, ".. autosummary_:: ") e (last_char prev indent)
                (nl +:+ join nl ((λ e0, indent +:+ e0) <$> e2 :: entries)))
      as [-> Hb'']; [done..|].
    change (nl +:+ join nl ((λ e0, indent +:+ e0) <$> e2 :: entries))
      with (String LF (join nl ((λ e0, indent +:+ e0) <$> e2 :: entries))).
    rewrite sub_from_unmatched by by apply indent_re_not_bol.
    by rewrite (IH ltac:(done) Hall (Some LF)).
Qed.

(** ** The autosummary block *)

Lemma autosummary_unmatched a c b R prev :
  ¬ occurs_in " autosummary::" (a +:+ String c b) →
  exec autosummary_re prev (String c b +:+ String LF (String "." (String "." R))) = [].
Proof.
  intros Hn. apply exec_nil. intros m g (s' & Heq & Hm).
  unfold autosummary_re in Hm. inv_matches.
  rewrite !app_assoc_s, !app_cons, !app_empty_l in Heq.
  injection Heq as -> Heq.
  repeat (destruct b as [|? b];
          [rewrite app_empty_l in Heq; unfold LF in Heq; congruence
          |rewrite app_cons in Heq; injection Heq as -> Heq]).
  destruct Hn.
  match goal with
  | |- occurs_in _ (a +:+ String ?x (String ?y (String ?z _))) =>
      exists (a +:+ String x (String y (String z ""))), b
  end.
  by rewrite app_assoc_s, !app_cons, !app_empty_l.
Qed.

Lemma autosummary_scan repl b a R prev :
  ¬ occurs_in " autosummary::" (a +:+ b) →
  sub_from autosummary_re repl prev 0
    (b +:+ String LF (String "." (String "." R)))
  = b +:+ sub_from autosummary_re repl (last_char prev b) 0
            (String LF (String "." (String "." R))).
Proof.
  revert a prev. induction b as [|c b IH]; intros a prev Hn; [done|].
  rewrite !(app_cons c b).
  rewrite (sub_from_unmatched _ _ prev c
             (b +:+ String LF (String "." (String "." R))))
    by exact (autosummary_unmatched a c b R prev Hn).
  rewrite (IH (a +:+ String c "")); [done|].
  by rewrite app_assoc_s, app_cons, app_empty_l.
Qed.

(** The first match at the start of a block: the block with its entries. *)
Lemma autosummary_block_head prev body post :
  body ≠ "" → no_blank_line body = true → last_char None body ≠ Some LF →
  ∃ m,
    head (exec autosummary_re prev
            (String LF (String "." (String "." (" autosummary::" +:+
               String LF (String LF (body +:+ String LF (String LF post))))))))
    = Some (m, [body], post) ∧ m ≠ "".
Proof.
  intros Hne Hb Hl. unfold autosummary_re.
  cut (∃ m g,
         head (exec (Chr (ch LF) · Chr any · Chr any · lit " autosummary::"
                     · star_lazy any · Chr (ch LF) · Chr (ch LF)
                     · Grp (plus_lazy any) · Chr (ch LF) · Chr (ch LF)) prev
                 (String LF (String "." (String "." (" autosummary::" +:+
                    String LF (String LF (body +:+ String LF (String LF post))))))))
         = Some (m, g, post) ∧ g = [body] ∧ m ≠ "").
  { intros (m & g & H & -> & ?). by exists m. }
  eexists _, _. split; [|split].
  - eapply head_exec_cat_first; [by apply head_exec_chr|].
    eapply head_exec_cat_first; [by apply head_exec_chr|].
    eapply head_exec_cat_first; [by apply head_exec_chr|].
    eapply head_exec_cat_first; [apply head_exec_lit|].
    eapply head_exec_cat_first; [apply head_exec_star_lazy|].
    eapply head_exec_cat_first; [by apply head_exec_chr|].
    eapply head_exec_cat_first; [by apply head_exec_chr|].
    apply head_exec_lazy_cat; [done| |].
    + intros a1 a2 Hs Ha1 Ha2. by eapply no_blank_line_unmatched.
    + eapply head_exec_cat_first; by apply head_exec_chr.
  - reflexivity.
  - by rewrite app_cons.
Qed.

(** X17: an autosummary block that follows a newline is rewritten.  For a
    text made of a part without [ autosummary::], a newline, the line
    [.. autosummary::], a blank line, one indented entry per line, a blank
    line and a rest, [read] replaces the block by one
    [.. autosummary_:: entry] line per entry, keeps the part before it, and
    treats the rest as a text of its own (in which a block at the very
    start is, again, not rewritten). *)
Theorem normalize_autosummary_block
    (pre indent : string) (entries : list string) (post : string)
    (self : RSTParser) :
  ¬ occurs_in " autosummary::" pre →
  indent ≠ "" → all_chars sp indent = true →
  entries ≠ [] →
  Forall (λ e, all_chars dot e = true ∧ starts_in sp e = false) entries →
  let text := pre +:+ nl +:+ ".. autosummary::" +:+ nl +:+ nl
              +:+ summary_body indent entries +:+ nl +:+ nl +:+ post in
  let text' := pre +:+ nl +:+ summary_directives entries +:+ nl +:+ nl
               +:+ normalize post in
  normalize text = text' ∧ lines (read text self) = splitlines text'.
Proof.
  intros Hpre Hi Hsp Hne Hall text text'.
  assert (normalize text = text') as Hn; [|split; [done|by unfold read; simpl; rewrite Hn]].
  destruct (summary_body_shape indent entries Hi Hsp Hne) as (Hb1 & _ & Hb2 & Hb3).
  { eapply Forall_impl; [exact Hall|]. by intros e [? _]. }
  unfold text, text', normalize, sub.
  change (pre +:+ nl +:+ ".. autosummary::" +:+ nl +:+ nl
          +:+ summary_body indent entries +:+ nl +:+ nl +:+ post)
    with (pre +:+ String LF (String "." (String "." (" autosummary::" +:+
            String LF (String LF (summary_body indent entries +:+
              String LF (String LF post))))))).
  rewrite (autosummary_scan _ pre "") by done.
  destruct (autosummary_block_head (last_char None pre)
              (summary_body indent entries) post Hb1 Hb2 Hb3) as (m & Hh & Hm).
  rewrite (sub_from_matched _ _ _ _ m [summary_body indent entries] post Hh Hm).
  rewrite (sub_from_bol_free autosummary_re _ _ None) by done.
  unfold repl_autoloaded, sub. cbn [head default from_option id].
  rewrite (sub_indent_body indent entries None) by done.
  by rewrite !app_assoc_s.
Qed.

Lemma normalize_autosummary_block_witness :
  let text := "Title" +:+ nl +:+ ".. autosummary::" +:+ nl +:+ nl
              +:+ summary_body "   " ["foo"; "bar"] +:+ nl +:+ nl +:+ "" in
  let text' := "Title" +:+ nl +:+ summary_directives ["foo"; "bar"] +:+ nl +:+ nl
               +:+ normalize "" in
  normalize text = text' ∧ lines (read text init) = splitlines text'.
Proof.
  apply (normalize_autosummary_block "Title" "   " ["foo"; "bar"] "" init);
    try done.
  - intros (a & b & H).
    repeat (destruct a as [|? a];
            [rewrite ?app_cons, ?app_empty_l in H; discriminate
            |rewrite app_cons in H; injection H as <- H]).
    destruct a; rewrite ?app_cons, ?app_empty_l in H; discriminate.
  - repeat constructor.
Defined.

(** ** A directive line within the indexing pass *)

Section DirectiveInPass.
Context {backend : Backend}.











End DirectiveInPass.

